(** * kiro-todo: the item store, its persistence and its presentation order

    A shallow embedding of

    - [todo-app/src/types/todo.ts]            (the [Todo] record and its update type),
    - [todo-app/src/services/todoService.ts]  (class [TodoService]),
    - [todo-app/src/hooks/useLocalStorage.ts] (the [setValue] callback),
    - [todo-app/src/hooks/useTodos.ts]        (the six user intents),
    - the [TodoList] component                (the [sortedTodos] view),

    followed by the properties the specification states about them.

    Conventions.  A JavaScript string is the list of its UTF-16 code units.
    A [Date] is its time value, [None] standing for the invalid date (time
    value NaN).  A JavaScript number met in parsed JSON is a binary64 float.
    Functions that read the clock or draw an identifier take the value read
    as an extra argument.  Code that throws returns in [Error + _]. *)

From Stdlib Require Import ZArith Lia Floats Permutation Sorted.
From Stdlib Require Ascii String.
From stdpp Require Import base option list gmap strings.

Set Warnings "-register-all".
Local Open Scope Z_scope.

(** ** JavaScript strings *)

Module JS.

Definition js_string : Type := list N.

(** An ASCII literal as a JavaScript string. *)
Definition lit (s : string) : js_string :=
  Ascii.N_of_ascii <$> String.list_ascii_of_string s.

(** [WhiteSpace] and [LineTerminator] of ECMAScript, which is what
    [String.prototype.trim] strips: TAB, LF, VT, FF, CR, SP, NBSP, U+1680,
    U+2000..U+200A, U+2028, U+2029, U+202F, U+205F, U+3000 and U+FEFF. *)
Definition is_whitespace (c : N) : bool :=
  ((9 <=? c) && (c <=? 13) || (c =? 32) || (c =? 160) || (c =? 5760)
   || (8192 <=? c) && (c <=? 8202) || (c =? 8232) || (c =? 8233)
   || (c =? 8239) || (c =? 8287) || (c =? 12288) || (c =? 65279))%N.

Fixpoint trimStart (s : js_string) : js_string :=
  match s with
  | c :: s' => if is_whitespace c then trimStart s' else s
  | [] => []
  end.

Definition trimEnd (s : js_string) : js_string :=
  reverse (trimStart (reverse s)).

(** [s.trim()] *)
Definition trim (s : js_string) : js_string := trimEnd (trimStart s).

(** [ToBoolean] of a string: only the empty string is falsy. *)
Definition truthy_string (s : js_string) : bool :=
  match s with [] => false | _ => true end.

(** A [Date] by its time value in milliseconds; [None] is the invalid date. *)
Definition Date : Type := option Z.

(** A thrown [Error] (or [DOMException]) by its [name] and [message]. *)
Record Error := mkError { name : string; message : string }.

(** [new Error(msg)] *)
Definition new_Error (msg : string) : Error := mkError "Error" msg.

(** *** Parsed JSON *)

(** The values [JSON.parse] returns.  An object is the list of its own
    properties (a property read takes the first entry of a name). *)
Inductive json :=
| JNull
| JBool (b : bool)
| JNum (x : float)
| JStr (s : js_string)
| JArr (elements : list json)
| JObj (properties : list (js_string * json)).

(** [ToBoolean]: [null], [false], [+0], [-0], [NaN] and the empty string are
    falsy, every object and array is truthy. *)
Definition ToBoolean (v : json) : bool :=
  match v with
  | JNull => false
  | JBool b => b
  | JNum x => negb (PrimFloat.is_zero x || PrimFloat.is_nan x)
  | JStr s => truthy_string s
  | JArr _ | JObj _ => true
  end.

(** [typeof v === 'object'] ([typeof null] is ['object'] too). *)
Definition typeof_object (v : json) : bool :=
  match v with
  | JNull | JArr _ | JObj _ => true
  | _ => false
  end.

Fixpoint own_property (properties : list (js_string * json)) (k : js_string)
  : option json :=
  match properties with
  | (k', v) :: rest => if decide (k' = k) then Some v else own_property rest k
  | [] => None
  end.

(** [v.k]: the property's value, [None] for [undefined].  Read off an array
    the names used here (none of them an index or [length]) are undefined. *)
Definition get (v : json) (k : js_string) : option json :=
  match v with
  | JObj properties => own_property properties k
  | _ => None
  end.

(** [k in v], for [v] an object or array out of [JSON.parse]. *)
Definition has (v : json) (k : js_string) : bool := bool_decide (is_Some (get v k)).

(** ToIntegerOrInfinity of a finite float: truncation towards zero. *)
Definition truncate (x : float) : Z :=
  match Prim2SF x with
  | S754_finite s m e =>
      let n := if (0 <=? e)%Z then Z.pos m * 2 ^ e else Z.pos m / 2 ^ (- e) in
      if s then - n else n
  | _ => 0
  end.

(** [TimeClip]: the time value of [new Date(x)] for a number [x]. *)
Definition TimeClip (x : float) : Date :=
  if PrimFloat.is_nan x || PrimFloat.is_infinity x then None
  else if (8.64e15 <? PrimFloat.abs x)%float then None
  else Some (truncate x).

(** *** Web storage *)

(** The text held under a key, by what the code does with it: the test
    [!stored] (only the empty text is falsy) and [JSON.parse], which throws
    a SyntaxError on text that is no JSON and returns the value otherwise. *)
Inductive text :=
| EmptyText
| NotJSON
| Serialized (j : json).

Definition JSON_stringify (j : json) : text := Serialized j.

(** [JSON.parse(t)]; [None] is the thrown SyntaxError. *)
Definition JSON_parse (t : text) : option json :=
  match t with
  | Serialized j => Some j
  | EmptyText | NotJSON => None
  end.

Definition truthy_text (t : text) : bool :=
  match t with EmptyText => false | _ => true end.

Inductive StorageOp := GetItem | SetItem | RemoveItem.

(** A [Storage] object: what it holds, and which of its methods throw (a
    full store throws a [QuotaExceededError] from [setItem]). *)
Record Storage := mkStorage {
  items : gmap string text;
  throws : StorageOp → option Error
}.

Definition getItem (st : Storage) (k : string) : Error + option text :=
  match throws st GetItem with
  | Some e => inl e
  | None => inr (items st !! k)
  end.

Definition setItem (st : Storage) (k : string) (v : text) : Error + Storage :=
  match throws st SetItem with
  | Some e => inl e
  | None => inr (mkStorage (<[k := v]> (items st)) (throws st))
  end.

Definition removeItem (st : Storage) (k : string) : Error + Storage :=
  match throws st RemoveItem with
  | Some e => inl e
  | None => inr (mkStorage (delete k (items st)) (throws st))
  end.

(** The global object: absent (no [window], as on a server), present
    with or without a [localStorage], or present with a [localStorage]
    whose very read throws (storage blocked by the browser: a
    [SecurityError]). *)
Inductive Window :=
| NoWindow
| WindowOf (localStorage : option Storage)
| Blocked (e : Error).

(** The guard [typeof window === 'undefined' || !window.localStorage]:
    reading [window.localStorage] throws ([inl]), or there is nothing to go
    on with ([inr None]), or the code goes on with the storage. *)
Definition localStorage_of (w : Window) : Error + option Storage :=
  match w with
  | NoWindow => inr None
  | WindowOf ls => inr ls
  | Blocked e => inl e
  end.

(** *** Dates and strings *)

(** The built-ins the code calls on dates, which ECMAScript leaves partly to
    the implementation: [Date.parse] on a string ([None] for NaN),
    [Date.prototype.toISOString] on a time value, and the string an object
    or array converts to when [new Date] is given one. *)
Class DateBuiltins := {
  Date_parse : js_string → Date;
  toISOString : Z → js_string;
  ToPrimitive_string : json → js_string
}.

(** The time values of valid dates: at most 8.64e15 ms either side of the epoch. *)
Definition valid_time (t : Z) : Prop :=
  -8640000000000000 ≤ t ≤ 8640000000000000.

(** What ECMAScript fixes of them: the ISO string of a valid date is not
    empty, and [Date.parse] reads it back to the millisecond. *)
Class DateBuiltinsLaws {B : DateBuiltins} : Prop := {
  toISOString_truthy : ∀ t, valid_time t → truthy_string (toISOString t) = true;
  Date_parse_toISOString : ∀ t, valid_time t → Date_parse (toISOString t) = Some t
}.

(** [new Date(v)] for a value [v] out of parsed JSON: a string is parsed, an
    object or array converts to a string first, anything else converts to
    a number ([null] and [false] to 0, [true] to 1). *)
Definition new_Date {B : DateBuiltins} (v : json) : Date :=
  match v with
  | JStr s => Date_parse s
  | JNum x => TimeClip x
  | JBool b => Some (if b then 1 else 0)
  | JNull => Some 0
  | JArr _ | JObj _ => Date_parse (ToPrimitive_string v)
  end.

(** [Date.prototype.toJSON], as [JSON.stringify] calls it: the ISO string,
    or [null] for an invalid date. *)
Definition Date_toJSON {B : DateBuiltins} (d : Date) : json :=
  match d with
  | Some t => JStr (toISOString t)
  | None => JNull
  end.

End JS.
Import JS.

(** ** ISO 8601 timestamps, as [toISOString] writes them *)

Module Iso8601.

Definition msPerDay : Z := 86400000.

(** Year, month and day of the month of a day number (days since
    1970-01-01) in the proleptic Gregorian calendar.  Days are counted
    within a 400-year era of 146097 days that starts on a 1 March, so that
    a leap day ends its year: centuries of 36524 days, four-year spans of
    1461 days, years of 365 days. *)
Definition civil_from_days (z : Z) : Z * Z * Z :=
  let z := z + 719468 in
  let era := z / 146097 in
  let doe := z mod 146097 in
  let c := Z.min (doe / 36524) 3 in
  let doc := doe - c * 36524 in
  let q := doc / 1461 in
  let doq := doc - q * 1461 in
  let yq := Z.min (doq / 365) 3 in
  let doy := doq - yq * 365 in
  let yoe := c * 100 + q * 4 + yq in
  let mp := (5 * doy + 2) / 153 in
  let d := doy - (153 * mp + 2) / 5 + 1 in
  let m := if mp <? 10 then mp + 3 else mp - 9 in
  let y := yoe + era * 400 + (if m <=? 2 then 1 else 0) in
  (y, m, d).

(** The day number of a date: MakeDay of ECMAScript. *)
Definition days_from_civil (y m d : Z) : Z :=
  let y := if m <=? 2 then y - 1 else y in
  let era := y / 400 in
  let yoe := y mod 400 in
  let mp := if 2 <? m then m - 3 else m + 9 in
  let doy := (153 * mp + 2) / 5 + d - 1 in
  let doe := yoe * 365 + yoe / 4 - yoe / 100 + doy in
  era * 146097 + doe - 719468.

(** [n] decimal digits of [v], padded with zeros. *)
Fixpoint digits (n : nat) (v : Z) : js_string :=
  match n with
  | O => []
  | S n' => digits n' (v / 10) ++ [Z.to_N (48 + v mod 10)]
  end.

Definition digit (c : N) : option Z :=
  if ((48 <=? c) && (c <=? 57))%N then Some (Z.of_N c - 48) else None.

(** Reads [n] decimal digits off the front of [s]. *)
Fixpoint read_digits (n : nat) (s : js_string) : option (Z * js_string) :=
  match n with
  | O => Some (0, s)
  | S n' =>
      '(a, s1) ← read_digits n' s;
      match s1 with
      | c :: s2 => d ← digit c; Some (a * 10 + d, s2)
      | [] => None
      end
  end.

Definition expect (c : N) (s : js_string) : option js_string :=
  match s with
  | c' :: s' => if decide (c' = c) then Some s' else None
  | [] => None
  end.

(** Four digits for the years 0 to 9999, else a sign and six digits. *)
Definition year_string (y : Z) : js_string :=
  if decide (0 ≤ y ≤ 9999) then digits 4 y
  else (if decide (y < 0) then 45%N else 43%N) :: digits 6 (Z.abs y).

Definition read_year (s : js_string) : option (Z * js_string) :=
  match s with
  | c :: s' =>
      if decide (c = 43%N) then read_digits 6 s'
      else if decide (c = 45%N) then '(y, s'') ← read_digits 6 s'; Some (- y, s'')
      else read_digits 4 s
  | [] => None
  end.

(** [YYYY-MM-DDTHH:mm:ss.sssZ] *)
Definition toISOString (t : Z) : js_string :=
  let '(y, m, d) := civil_from_days (t / msPerDay) in
  let tm := t mod msPerDay in
  year_string y ++ 45%N :: digits 2 m ++ 45%N :: digits 2 d
  ++ 84%N :: digits 2 (tm / 3600000) ++ 58%N :: digits 2 (tm / 60000 mod 60)
  ++ 58%N :: digits 2 (tm / 1000 mod 60) ++ 46%N :: digits 3 (tm mod 1000) ++ [90%N].

(** The time value a string of that format spells. *)
Definition decode (s : js_string) : option Z :=
  '(y, s) ← read_year s;
  s ← expect 45 s; '(m, s) ← read_digits 2 s;
  s ← expect 45 s; '(d, s) ← read_digits 2 s;
  s ← expect 84 s; '(h, s) ← read_digits 2 s;
  s ← expect 58 s; '(mi, s) ← read_digits 2 s;
  s ← expect 58 s; '(sec, s) ← read_digits 2 s;
  s ← expect 46 s; '(ms, s) ← read_digits 3 s;
  s ← expect 90 s;
  match s with
  | [] => Some (days_from_civil y m d * msPerDay
                + h * 3600000 + mi * 60000 + sec * 1000 + ms)
  | _ => None
  end.

(** [Date.parse]: the string [toISOString] gives for a valid date parses
    to that date; what any other string parses to is left to
    [other_formats], as ECMAScript leaves it to the implementation. *)
Definition parse (other_formats : js_string → Date) (s : js_string) : Date :=
  match decode s with
  | Some t =>
      if decide (valid_time t ∧ toISOString t = s) then Some t else other_formats s
  | None => other_formats s
  end.

(** The built-ins of an engine, given the formats it parses besides and
    the strings its objects and arrays convert to. *)
Definition builtins (other_formats : js_string → Date) (object_string : json → js_string)
  : DateBuiltins :=
  {| Date_parse := parse other_formats;
     JS.toISOString := toISOString;
     ToPrimitive_string := object_string |}.

End Iso8601.

(** ** types/todo.ts *)

Record Todo := mkTodo {
  id : js_string;
  title : js_string;
  completed : bool;
  createdAt : Date
}.

(** [Partial<Omit<Todo, 'id' | 'createdAt'>>]: each field present or absent. *)
Record TodoUpdate := mkTodoUpdate {
  upd_title : option js_string;
  upd_completed : option bool
}.

(** [Pick<Todo, 'title'>] *)
Record CreateTodoInput := mkCreateTodoInput { input_title : js_string }.

#[global] Instance Todo_eq_dec : EqDecision Todo.
Proof. solve_decision. Defined.

(** ** services/todoService.ts: the pure operations *)

Module TodoService.

Definition STORAGE_KEY : string := "todos".

(** [createTodo(input)], with [uuid] the value of [crypto.randomUUID()] and
    [now] the time value of [new Date()]. *)
Definition createTodo (uuid : js_string) (now : Z) (input : CreateTodoInput) : Todo :=
  {| id := uuid;
     title := trim (input_title input);
     completed := false;
     createdAt := Some now |}.

(** The object built for a matching item by [updateTodo]:
    [{...todo, ...updates, title: updates.title ? updates.title.trim() : todo.title}]. *)
Definition merged (todo : Todo) (updates : TodoUpdate) : Todo :=
  {| id := id todo;
     title := match upd_title updates with
              | Some t => if truthy_string t then trim t else title todo
              | None => title todo
              end;
     completed := default (completed todo) (upd_completed updates);
     createdAt := createdAt todo |}.

Definition updateTodo (todos : list Todo) (i : js_string) (updates : TodoUpdate)
  : list Todo :=
  (λ todo, if decide (id todo = i) then merged todo updates else todo) <$> todos.

Definition deleteTodo (todos : list Todo) (i : js_string) : list Todo :=
  filter (λ todo, id todo ≠ i) todos.

(** The object built for a matching item by [toggleComplete]:
    [{...todo, completed: !todo.completed}]. *)
Definition toggled (todo : Todo) : Todo :=
  {| id := id todo;
     title := title todo;
     completed := negb (completed todo);
     createdAt := createdAt todo |}.

Definition toggleComplete (todos : list Todo) (i : js_string) : list Todo :=
  (λ todo, if decide (id todo = i) then toggled todo else todo) <$> todos.

(** The result object of [validateTodoTitle]. *)
Record Validation := mkValidation { isValid : bool; error : option string }.

Definition msg_required : string := "タイトルは必須です".
Definition msg_empty : string := "タイトルは空にできません".
Definition msg_too_long : string := "タイトルは500文字以内で入力してください".

(** [validateTodoTitle(title)].  The argument is a string, so of the first
    test [!title || typeof title !== 'string'] only [!title] can hold. *)
Definition validateTodoTitle (t : js_string) : Validation :=
  if negb (truthy_string t) then mkValidation false (Some msg_required)
  else
    let trimmedTitle := trim t in
    if decide (length trimmedTitle = 0%nat) then mkValidation false (Some msg_empty)
    else if decide (500 < length trimmedTitle)%nat then mkValidation false (Some msg_too_long)
    else mkValidation true None.

(** *** Persistence *)

(** What [loadTodos] returns is typed [Todo[]], yet [id] and [title] are
    copied from the parsed JSON as they are, whatever their type. *)
Record LoadedTodo := mkLoadedTodo {
  loaded_id : json;
  loaded_title : json;
  loaded_completed : bool;
  loaded_createdAt : Date
}.

(** A [Todo] as a loaded record. *)
Definition as_loaded (todo : Todo) : LoadedTodo :=
  {| loaded_id := JStr (id todo);
     loaded_title := JStr (title todo);
     loaded_completed := completed todo;
     loaded_createdAt := createdAt todo |}.

Definition msg_quota : string :=
  "ストレージ容量が不足しています。古いデータを削除してください。".
Definition msg_save_failed : string := "データの保存に失敗しました".
Definition msg_clear_failed : string := "データのクリアに失敗しました".

Section Persistence.
Context {B : DateBuiltins}.

(** The value [JSON.stringify(todos)] serializes. *)
Definition Todo_toJSON (todo : Todo) : json :=
  JObj [ (lit "id", JStr (id todo));
         (lit "title", JStr (title todo));
         (lit "completed", JBool (completed todo));
         (lit "createdAt", Date_toJSON (createdAt todo)) ].

Definition todos_toJSON (todos : list Todo) : json := JArr (Todo_toJSON <$> todos).

(** The [catch] of [saveTodos]: what it throws for the error it caught. *)
Definition saveTodos_catch (error : Error) : Error :=
  if decide (name error = "QuotaExceededError") then new_Error msg_quota
  else new_Error msg_save_failed.

(** [saveTodos(todos)]: the window after the call, or the error thrown.
    The guard and the write are both inside [try]. *)
Definition saveTodos (w : Window) (todos : list Todo) : Error + Window :=
  match localStorage_of w with
  | inl e => inl (saveTodos_catch e)                (* the guard throws *)
  | inr None => inr w                               (* console.warn; return *)
  | inr (Some st) =>
      let serializedTodos := JSON_stringify (todos_toJSON todos) in
      match setItem st STORAGE_KEY serializedTodos with
      | inr st' => inr (WindowOf (Some st'))
      | inl e => inl (saveTodos_catch e)
      end
  end.

(** The callback [loadTodos] maps over the parsed array, [now] being the
    value of [Date.now()]; [None] is its [null]. *)
Definition restore (now : Z) (todo : json) : option LoadedTodo :=
  if negb (ToBoolean todo) || negb (typeof_object todo)
     || negb (has todo (lit "id")) || negb (has todo (lit "title"))
     || negb (has todo (lit "completed"))
  then None
  else
    match get todo (lit "id"), get todo (lit "title"), get todo (lit "completed") with
    | Some todoObj_id, Some todoObj_title, Some (JBool todoObj_completed) =>
        if negb (ToBoolean todoObj_id) || negb (ToBoolean todoObj_title) then None
        else
          let todoObj_createdAt := get todo (lit "createdAt") in
          Some {| loaded_id := todoObj_id;
                  loaded_title := todoObj_title;
                  loaded_completed := todoObj_completed;
                  loaded_createdAt :=
                    match todoObj_createdAt with
                    | Some v => if ToBoolean v then new_Date v else Some now
                    | None => Some now
                    end |}
    | _, _, _ => None                      (* typeof completed !== 'boolean' *)
    end.

(** [loadTodos()]; every thrown error ends in the [catch], which returns []. *)
Definition loadTodos (now : Z) (w : Window) : list LoadedTodo :=
  match localStorage_of w with
  | inl _ => []                                     (* the guard throws *)
  | inr None => []
  | inr (Some st) =>
      match getItem st STORAGE_KEY with
      | inl _ => []
      | inr None => []
      | inr (Some stored) =>
          if negb (truthy_text stored) then []
          else
            match JSON_parse stored with
            | None => []
            | Some (JArr parsedTodos) => omap (restore now) parsedTodos
            | Some _ => []
            end
      end
  end.

(** [clearTodos()] *)
Definition clearTodos (w : Window) : Error + Window :=
  match localStorage_of w with
  | inl _ => inl (new_Error msg_clear_failed)       (* the guard throws *)
  | inr None => inr w
  | inr (Some st) =>
      match removeItem st STORAGE_KEY with
      | inr st' => inr (WindowOf (Some st'))
      | inl _ => inl (new_Error msg_clear_failed)
      end
  end.

End Persistence.

End TodoService.

(** ** hooks/useLocalStorage.ts and hooks/useTodos.ts *)

Module Hooks.
Import TodoService.

(** The state behind [useTodos()]: the value and error of
    [useLocalStorage<Todo[]>('todos', [])], the hook's own [isLoading] and
    [error], and the browser it runs in. *)
Record State := mkState {
  todos : list Todo;
  storageError : option string;
  isLoading : bool;
  error : option string;
  window : Window
}.

Definition msg_not_persisted : string :=
  "データは永続化されません（ローカルストレージ無効）".
Definition msg_save_failed_prefix : string := "データの保存に失敗しました: ".

Section Hooks.
Context {B : DateBuiltins}.

(** The state [useTodos] starts from when the store holds nothing to read. *)
Definition initial (w : Window) : State := mkState [] None false None w.

(** [setValue(value)] of [useLocalStorage], at key ['todos']: [value] is the
    new array, or a function of the current one. *)
Definition setValue (value : list Todo + (list Todo → list Todo)) (s : State) : State :=
  let valueToStore := match value with inl v => v | inr f => f (todos s) end in
  let catch err :=
    let msg := if decide (name err = "QuotaExceededError") then msg_quota
               else msg_save_failed_prefix +:+ message err in
    mkState valueToStore (Some msg) (isLoading s) (error s) (window s) in
  match localStorage_of (window s) with
  | inl err => catch err                            (* the guard throws *)
  | inr None =>
      mkState valueToStore (Some msg_not_persisted) (isLoading s) (error s) (window s)
  | inr (Some st) =>
      match setItem st "todos" (JSON_stringify (todos_toJSON valueToStore)) with
      | inr st' =>
          mkState valueToStore None (isLoading s) (error s) (WindowOf (Some st'))
      | inl err => catch err
      end
  end.

Definition setTodos (value : list Todo) : State → State := setValue (inl value).

(** The tail every intent shares once its new array is computed:
    [setTodos(updatedTodos); TodoService.saveTodos(updatedTodos)] inside
    [try], [setError(err.message)] in [catch], [setIsLoading(false)] in
    [finally].  It is entered after [setIsLoading(true); setError(null)]. *)
Definition commit (updatedTodos : list Todo) (s : State) : State :=
  let s1 := setTodos updatedTodos
              (mkState (todos s) (storageError s) true None (window s)) in
  match saveTodos (window s1) updatedTodos with
  | inr w' => mkState (todos s1) (storageError s1) false (error s1) w'
  | inl err => mkState (todos s1) (storageError s1) false (Some (message err)) (window s1)
  end.

(** The [catch] and [finally] of an intent whose validation threw
    [new Error(validation.error)]. *)
Definition rejected (validation : Validation) (s : State) : State :=
  mkState (todos s) (storageError s) false
          (Some (default "" (TodoService.error validation))) (window s).

Definition addTodo (uuid : js_string) (now : Z) (input : CreateTodoInput) (s : State)
  : State :=
  let validation := validateTodoTitle (input_title input) in
  if negb (isValid validation) then rejected validation s
  else
    let newTodo := createTodo uuid now input in
    let updatedTodos := todos s ++ [newTodo] in
    commit updatedTodos s.

Definition updateTodo (i : js_string) (updates : TodoUpdate) (s : State) : State :=
  let run := commit (TodoService.updateTodo (todos s) i updates) s in
  match upd_title updates with
  | Some t =>
      let validation := validateTodoTitle t in
      if negb (isValid validation) then rejected validation s else run
  | None => run
  end.

Definition deleteTodo (i : js_string) (s : State) : State :=
  commit (TodoService.deleteTodo (todos s) i) s.

Definition toggleComplete (i : js_string) (s : State) : State :=
  commit (TodoService.toggleComplete (todos s) i) s.

Definition clearAllTodos (s : State) : State :=
  let s1 := setTodos [] (mkState (todos s) (storageError s) true None (window s)) in
  match clearTodos (window s1) with
  | inr w' => mkState (todos s1) (storageError s1) false (error s1) w'
  | inl err => mkState (todos s1) (storageError s1) false (Some (message err)) (window s1)
  end.

Definition clearCompletedTodos (s : State) : State :=
  let activeTodos := filter (λ todo, completed todo = false) (todos s) in
  commit activeTodos s.

(** The [stats] object the hook returns: [total], [completed] and [active],
    the last two named apart from the item's [completed] field here. *)
Record Stats := mkStats { total : nat; done_count : nat; active_count : nat }.

Definition stats (s : State) : Stats :=
  {| total := length (todos s);
     done_count := length (filter (λ todo, completed todo = true) (todos s));
     active_count := length (filter (λ todo, completed todo = false) (todos s)) |}.

(** [error || storageError], the error the hook returns. *)
Definition combinedError (s : State) : option string :=
  match error s with
  | Some e => if decide (e = "") then storageError s else Some e
  | None => storageError s
  end.

(** A user intent, with the identifier and the clock reading [addTodo] draws. *)
Inductive Intent :=
| Add (uuid : js_string) (now : Z) (input : CreateTodoInput)
| Update (i : js_string) (updates : TodoUpdate)
| Delete (i : js_string)
| Toggle (i : js_string)
| ClearAll
| ClearCompleted.

Definition dispatch (s : State) (a : Intent) : State :=
  match a with
  | Add uuid now input => addTodo uuid now input s
  | Update i updates => updateTodo i updates s
  | Delete i => deleteTodo i s
  | Toggle i => toggleComplete i s
  | ClearAll => clearAllTodos s
  | ClearCompleted => clearCompletedTodos s
  end.

(** The state after a sequence of intents, each run to its end before the next. *)
Definition run (s : State) (intents : list Intent) : State :=
  foldl dispatch s intents.

End Hooks.

End Hooks.

(** ** The TodoList component: [sortedTodos] *)

Module TodoList.

(** The comparator handed to [sort]; [None] is NaN, which the subtraction
    gives when either date is invalid.  Time values are integers below 2^53
    in size, so the sign of their float difference is that of the exact one. *)
Definition compare (a b : Todo) : option Z :=
  if negb (bool_decide (completed a = completed b)) then
    Some (if completed a then 1 else -1)
  else
    match createdAt b, createdAt a with
    | Some tb, Some ta => Some (tb - ta)
    | _, _ => None
    end.

Section Sort.
Context {A : Type} (comparefn : A → A → option Z).

(** SortCompare of ECMAScript: a NaN from the comparator counts as +0. *)
Definition SortCompare (x y : A) : Z := default 0 (comparefn x y).

(** A consistent comparison function for the elements of [l], as
    ECMAScript defines it: on them it returns a number that is not NaN,
    and the relations [=CF], [<CF] and [>CF] it gives are reflexive,
    symmetric and transitive as the standard lists them. *)
Definition consistent (l : list A) : Prop :=
  (∀ a b, a ∈ l → b ∈ l → is_Some (comparefn a b))
  ∧ (∀ a, a ∈ l → SortCompare a a = 0)
  ∧ (∀ a b, a ∈ l → b ∈ l → SortCompare a b = 0 → SortCompare b a = 0)
  ∧ (∀ a b c, a ∈ l → b ∈ l → c ∈ l →
       SortCompare a b = 0 → SortCompare b c = 0 → SortCompare a c = 0)
  ∧ (∀ a b c, a ∈ l → b ∈ l → c ∈ l →
       SortCompare a b < 0 → SortCompare b c < 0 → SortCompare a c < 0)
  ∧ (∀ a b c, a ∈ l → b ∈ l → c ∈ l →
       SortCompare a b > 0 → SortCompare b c > 0 → SortCompare a c > 0).

(** One way to sort, by insertion from the right: [x] goes in front of the
    first element it does not sort after. *)
Fixpoint insert_sorted (x : A) (l : list A) : list A :=
  match l with
  | y :: l' => if decide (SortCompare x y ≤ 0) then x :: l else y :: insert_sorted x l'
  | [] => [x]
  end.

Definition insertion_sort (l : list A) : list A := foldr insert_sorted [] l.

End Sort.

(** [Array.prototype.sort(comparefn)] on the elements of an array, a
    built-in whose algorithm ECMAScript leaves to the implementation. *)
Class SortBuiltin := {
  Array_sort : ∀ A : Type, (A → A → option Z) → list A → list A
}.
Arguments Array_sort {_ A} comparefn l.

(** What ECMAScript fixes of it, and only for a comparison function that
    is consistent for the elements: the result holds the same elements, no
    element is behind one it sorts before, and elements that compare equal
    keep their order (the sort is stable).  Otherwise the sort order is
    implementation-defined. *)
Class SortBuiltinLaws {S : SortBuiltin} : Prop := {
  Array_sort_perm : ∀ A (comparefn : A → A → option Z) l,
    consistent comparefn l → Array_sort comparefn l ≡ₚ l;
  Array_sort_sorted : ∀ A (comparefn : A → A → option Z) l,
    consistent comparefn l →
    ∀ i j a b, (i < j)%nat →
      Array_sort comparefn l !! i = Some a → Array_sort comparefn l !! j = Some b →
      ¬ SortCompare comparefn b a < 0;
  Array_sort_stable : ∀ A (comparefn : A → A → option Z) l,
    consistent comparefn l →
    ∀ x, x ∈ l →
      filter (λ y, SortCompare comparefn x y = 0) (Array_sort comparefn l)
      = filter (λ y, SortCompare comparefn x y = 0) l
}.

(** An engine that sorts by insertion. *)
Definition by_insertion : SortBuiltin := {| Array_sort A := insertion_sort |}.

(** Arrays live in a heap: [sort] works in place, a spread allocates. *)
Abbreviation loc := positive.
Abbreviation heap := (gmap loc (list Todo)).

(** [[...a]]: a fresh array with the elements of [a]. *)
Definition spread (h : heap) (a : loc) : option (heap * loc) :=
  l ← h !! a;
  let p := fresh (dom h) in
  Some (<[p := l]> h, p).

Section View.
Context {S : SortBuiltin}.

(** [a.sort(comparefn)]: sorts the array at [a] in place and returns [a]. *)
Definition sort_in_place (comparefn : Todo → Todo → option Z) (h : heap) (a : loc)
  : option (heap * loc) :=
  l ← h !! a;
  Some (<[a := Array_sort comparefn l]> h, a).

(** [const sortedTodos = [...todos].sort((a, b) => ...)] *)
Definition sortedTodos (h : heap) (todos : loc) : option (heap * loc) :=
  '(h1, copy) ← spread h todos;
  sort_in_place compare h1 copy.

(** The view as a function of the array's elements. *)
Definition presentationOrder (todos : list Todo) : list Todo :=
  Array_sort compare todos.

End View.

End TodoList.

(** ** Sample data *)

Module Samples.

Definition milk : Todo := mkTodo (lit "1") (lit "Buy milk") false (Some 1000).
Definition eggs : Todo := mkTodo (lit "2") (lit "Buy eggs") true (Some 2000).
Definition milk_again : Todo := mkTodo (lit "1") (lit "Buy milk twice") false (Some 3000).

(** [{ title: '' }] and [{ title: '  Buy oat milk ' }] *)
Definition empty_title : TodoUpdate := mkTodoUpdate (Some []) None.
Definition oat_milk : TodoUpdate := mkTodoUpdate (Some (lit "  Buy oat milk ")) None.

(** Three active items, the middle one with an invalid creation date. *)
Definition older : Todo := mkTodo (lit "1") (lit "a") false (Some 1000).
Definition undated : Todo := mkTodo (lit "2") (lit "b") false None.
Definition newer : Todo := mkTodo (lit "3") (lit "c") false (Some 2000).


(** A stored item that has every field, with the empty string for an id. *)
Definition unnamed : json :=
  JObj [ (lit "id", JStr []); (lit "title", JStr (lit "x"));
         (lit "completed", JBool false) ].

(** A session: add an item, try to add a blank one, try to blank the first
    one's title, complete it, rename it. *)
Definition session : list Hooks.Intent :=
  [ Hooks.Add (lit "1") 1000 (mkCreateTodoInput (lit "  Buy milk "));
    Hooks.Add (lit "2") 2000 (mkCreateTodoInput (lit "   "));
    Hooks.Update (lit "1") (mkTodoUpdate (Some (lit " ")) None);
    Hooks.Toggle (lit "1");
    Hooks.Update (lit "1") oat_milk ].

(** An engine whose [Date.parse] knows the ISO format only.  Its objects
    convert to the string of a plain object; no sample reads a date off an
    array. *)
Definition engine : DateBuiltins :=
  Iso8601.builtins (λ _, None) (λ _, lit "[object Object]").

(** A store that is full: every write throws a [QuotaExceededError]. *)
Definition full_store : Storage :=
  mkStorage ∅ (λ op, match op with
                     | SetItem => Some (mkError "QuotaExceededError" "exceeded the quota")
                     | _ => None
                     end).

(** A window whose storage is blocked: reading [window.localStorage]
    throws a [SecurityError]. *)
Definition blocked : Window :=
  Blocked (mkError "SecurityError" "The operation is insecure.").

End Samples.

(** * The specification's vocabulary *)

(** ** Titles *)

Definition whitespace_only (s : js_string) : Prop :=
  Forall (λ c, is_whitespace c = true) s.

(** What [trimStart] leaves: nothing, or a string that starts with a
    character that is no whitespace. *)
Definition starts_black (s : js_string) : Prop :=
  match s with
  | c :: _ => is_whitespace c = false
  | [] => True
  end.

(** A title as validation admits it: 1 to 500 characters once trimmed. *)
Definition valid_title (t : js_string) : Prop := (1 ≤ length (trim t) ≤ 500)%nat.

Definition titles_valid (l : list Todo) : Prop :=
  Forall (λ todo, valid_title (title todo)) l.

(** ** Stored and loaded records *)

(** A browser whose [localStorage] holds [t] under the key and never throws. *)
Definition holding (t : text) : Window :=
  WindowOf (Some (mkStorage {[ TodoService.STORAGE_KEY := t ]} (λ _, None))).

(** A record as the data model has it: a non-empty id, a title of 1 to 500
    characters once trimmed, and a valid creation date. *)
Definition well_formed (todo : Todo) : Prop :=
  id todo ≠ []
  ∧ valid_title (title todo)
  ∧ ∃ t, createdAt todo = Some t ∧ valid_time t.

(** The element [restore] keeps: an object with a truthy [id], a truthy
    [title] and a boolean [completed]. *)
Definition kept (v : json) (i t : json) (c : bool) : Prop :=
  get v (lit "id") = Some i ∧ ToBoolean i = true
  ∧ get v (lit "title") = Some t ∧ ToBoolean t = true
  ∧ get v (lit "completed") = Some (JBool c).

(** ** The shown order *)

(** The order the view is meant to show: active items before completed
    ones, and among items of one status the later creation time first. *)
Definition shown_before (a b : Todo) : Prop :=
  (completed a = false ∧ completed b = true)
  ∨ (completed a = completed b
     ∧ ∃ ta tb, createdAt a = Some ta ∧ createdAt b = Some tb ∧ tb ≤ ta).

(** Active items before completed ones, and no more. *)
Definition active_first (a b : Todo) : Prop :=
  completed a = true → completed b = true.

Definition has_date (todo : Todo) : Prop := is_Some (createdAt todo).

(** What the comparator tells apart: status and creation time. *)
Definition sort_key (todo : Todo) : bool * Date := (completed todo, createdAt todo).

(** ** Statements as the specification words them *)

(** The statement of C5 as the specification words it: a provided title,
    the empty string included, is stored trimmed. *)
Definition provided_title_stored_trimmed (s : list Todo) (i : js_string) (u : TodoUpdate)
  : Prop :=
  ∀ k todo t, s !! k = Some todo → id todo = i → upd_title u = Some t →
    title <$> TodoService.updateTodo s i u !! k = Some (trim t).


(** The write of [saveTodos] and [setValue] throws [e]: reading
    [window.localStorage] throws it, or [setItem] does. *)
Definition write_throws (w : Window) (e : Error) : Prop :=
  localStorage_of w = inl e
  ∨ ∃ st, localStorage_of w = inr (Some st) ∧ throws st SetItem = Some e.

(** The statement of C3 for a missing store, as the specification words it. *)
Definition save_fails_without_store {B : DateBuiltins} : Prop :=
  ∀ w todos, localStorage_of w = inr None → ∃ e, TodoService.saveTodos w todos = inl e.

(** The statement of C8 on creation times, as the specification words it:
    of two shown items of one status, the one shown first is not older. *)
Definition newest_first {S : TodoList.SortBuiltin} (l : list Todo) : Prop :=
  ∀ i j a b ta tb, (i < j)%nat →
    TodoList.presentationOrder l !! i = Some a →
    TodoList.presentationOrder l !! j = Some b →
    completed a = completed b →
    createdAt a = Some ta → createdAt b = Some tb → tb ≤ ta.

(** * The rest of the application *)

(** ** Sessions *)

(** The identifiers a session draws, one for each add, in order. *)
Definition drawn_ids (intents : list Hooks.Intent) : list js_string :=
  omap (λ a, match a with Hooks.Add uuid _ _ => Some uuid | _ => None end) intents.

(** The adds of a session draw a non-empty identifier and read a valid time. *)
Definition draws_well (a : Hooks.Intent) : Prop :=
  match a with
  | Hooks.Add uuid now _ => uuid ≠ [] ∧ valid_time now
  | _ => True
  end.

(** A backing store that is there and none of whose methods throws. *)
Definition reliable (w : Window) : Prop :=
  ∃ st, localStorage_of w = inr (Some st) ∧ ∀ op, throws st op = None.

(** What the slot holds. *)
Definition slot (w : Window) : option text :=
  match localStorage_of w with
  | inr (Some st) => items st !! TodoService.STORAGE_KEY
  | _ => None
  end.

(** The slot holds the collection in memory, or is missing while the
    collection is empty. *)
Definition mirrored {B : DateBuiltins} (s : Hooks.State) : Prop :=
  slot (Hooks.window s)
  = Some (JSON_stringify (TodoService.todos_toJSON (Hooks.todos s)))
  ∨ (slot (Hooks.window s) = None ∧ Hooks.todos s = []).


(** ** hooks/useLocalStorage.ts: the initial read *)

Module InitialRead.

(** An element of the array the initializer returns: the parsed element as
    it is, or the copy [{...item, createdAt: new Date(item.createdAt)}] of
    an object that has a [createdAt], by the properties it copies and the
    date that overrides the one among them. *)
Inductive Element :=
| AsParsed (item : json)
| Redated (properties : list (js_string * json)) (createdAt : Date).

(** What the initializer returns: [initialValue], the mapped array, or a
    parsed value that is no array. *)
Inductive Initial :=
| InitialValue
| Elements (l : list Element)
| NotAnArray (parsedItem : json).

Section InitialRead.
Context {B : DateBuiltins}.

(** The own properties a spread [{...item}] copies, for an item that
    passed the test: an array has no [createdAt] and never gets here. *)
Definition own_properties (item : json) : list (js_string * json) :=
  match item with
  | JObj properties => properties
  | _ => []
  end.

(** The callback the initializer maps over a parsed array. *)
Definition redate (item : json) : Element :=
  if ToBoolean item && typeof_object item && has item (lit "createdAt") then
    Redated (own_properties item)
            (from_option new_Date None (get item (lit "createdAt")))
  else AsParsed item.

(** The function [useState] is given for the stored value, read at [key]. *)
Definition initializer (w : Window) (key : string) : Initial :=
  match localStorage_of w with
  | inl _ => InitialValue                                    (* catch *)
  | inr None => InitialValue                                 (* console.warn *)
  | inr (Some st) =>
      match getItem st key with
      | inl _ => InitialValue                                (* catch *)
      | inr None => InitialValue                             (* item === null *)
      | inr (Some item) =>
          match JSON_parse item with
          | None => InitialValue                             (* catch *)
          | Some (JArr parsedItem) => Elements (redate <$> parsedItem)
          | Some parsedItem => NotAnArray parsedItem
          end
      end
  end.

(** A saved [Todo] as the initializer gives it back. *)
Definition reread (todo : Todo) : Element :=
  Redated [ (lit "id", JStr (id todo));
            (lit "title", JStr (title todo));
            (lit "completed", JBool (completed todo));
            (lit "createdAt", Date_toJSON (createdAt todo)) ]
          (Some (default 0 (createdAt todo))).

End InitialRead.

End InitialRead.


(** ** The AddTodoForm and TodoItem components *)

Module AddTodoForm.
Import TodoService.

(** The component's own state. *)
Record Form := mkForm {
  title : js_string;
  isSubmitting : bool;
  validationError : option string
}.

Section AddTodoForm.
Context {B : DateBuiltins}.

(** [handleSubmit], with [onAdd] the hook's [addTodo] (which draws [uuid]
    and reads [now]); [addTodo] settles without rejecting, so the form is
    cleared after every call. *)
Definition handleSubmit (uuid : js_string) (now : Z) (f : Form) (s : Hooks.State)
  : Form * Hooks.State :=
  let trimmedTitle := trim (title f) in
  if negb (truthy_string trimmedTitle) then
    (mkForm (title f) (isSubmitting f) (Some msg_required), s)
  else if decide (500 < length trimmedTitle)%nat then
    (mkForm (title f) (isSubmitting f) (Some msg_too_long), s)
  else
    (mkForm [] false None,
     Hooks.addTodo uuid now (mkCreateTodoInput trimmedTitle) s).

(** [handleTitleChange(value)] *)
Definition handleTitleChange (value : js_string) (f : Form) : Form :=
  mkForm value (isSubmitting f) None.

End AddTodoForm.

End AddTodoForm.

Module TodoItem.
Import TodoService.

(** The component's own state; the item it shows is a prop. *)
Record Item := mkItem {
  isEditing : bool;
  editTitle : js_string;
  isSubmitting : bool;
  validationError : option string
}.

(** What [formatCreatedAt] returns: ['今日'], ['昨日'], [`${n}日前`], or the
    date as [toLocaleDateString] writes it in the local time zone. *)
Inductive Label :=
| Today
| Yesterday
| DaysAgo (n : Z)
| LocaleDate (date : Date).

(** [formatCreatedAt(date)], [now] being the time value of [new Date()].
    The day count is exact when the two times are less than 2^53 ms apart;
    with an invalid date every comparison of the NaN fails. *)
Definition formatCreatedAt (now : Z) (date : Date) : Label :=
  match date with
  | Some t =>
      let diffMs := now - t in
      let diffDays := diffMs / (1000 * 60 * 60 * 24) in
      if decide (diffDays = 0) then Today
      else if decide (diffDays = 1) then Yesterday
      else if decide (diffDays < 7) then DaysAgo diffDays
      else LocaleDate date
  | None => LocaleDate date
  end.

Section TodoItem.
Context {B : DateBuiltins}.

(** [handleStartEdit] *)
Definition handleStartEdit (isLoading : bool) (todo : Todo) (c : Item) : Item :=
  if isLoading then c else mkItem true (title todo) (isSubmitting c) None.

(** [handleCancelEdit] *)
Definition handleCancelEdit (todo : Todo) (c : Item) : Item :=
  mkItem false (title todo) (isSubmitting c) None.

(** [handleSaveEdit], with [onUpdate] the hook's [updateTodo] at the item's
    id, as [TodoList] binds it; it settles without rejecting. *)
Definition handleSaveEdit (todo : Todo) (c : Item) (s : Hooks.State)
  : Item * Hooks.State :=
  let trimmedTitle := trim (editTitle c) in
  if negb (truthy_string trimmedTitle) then
    (mkItem (isEditing c) (editTitle c) (isSubmitting c) (Some msg_empty), s)
  else if decide (500 < length trimmedTitle)%nat then
    (mkItem (isEditing c) (editTitle c) (isSubmitting c) (Some msg_too_long), s)
  else if decide (trimmedTitle = title todo) then
    (handleCancelEdit todo c, s)
  else
    (mkItem false (editTitle c) false None,
     Hooks.updateTodo (id todo) (mkTodoUpdate (Some trimmedTitle) None) s).

(** [handleToggleComplete], with [onToggle] the hook's [toggleComplete]. *)
Definition handleToggleComplete (isLoading : bool) (todo : Todo) (c : Item)
  (s : Hooks.State) : Hooks.State :=
  if isLoading || isEditing c then s else Hooks.toggleComplete (id todo) s.

(** [handleDelete], with [onDelete] the hook's [deleteTodo]. *)
Definition handleDelete (isLoading : bool) (todo : Todo) (c : Item)
  (s : Hooks.State) : Hooks.State :=
  if isLoading || isSubmitting c then s else Hooks.deleteTodo (id todo) s.

End TodoItem.

End TodoItem.


(** ** types/utils.ts: the type guards *)

Module RegExp.

(** The patterns the guards use: classes of code units, sequences,
    repetition.  A pattern is anchored at both ends, so [test] asks whether
    the whole string is in its language. *)
Inductive regex :=
| Never
| Nothing
| Class (p : N → bool)
| Cat (r1 r2 : regex)
| Alt (r1 r2 : regex)
| Star (r : regex).

(** [r+] and [r{n}] *)
Definition Plus (r : regex) : regex := Cat r (Star r).

Fixpoint Times (n : nat) (r : regex) : regex :=
  match n with
  | O => Nothing
  | S n' => Cat r (Times n' r)
  end.

Definition Chr (c : N) : regex := Class (λ c', bool_decide (c' = c)).

Fixpoint nullable (r : regex) : bool :=
  match r with
  | Never | Class _ => false
  | Nothing | Star _ => true
  | Cat r1 r2 => nullable r1 && nullable r2
  | Alt r1 r2 => nullable r1 || nullable r2
  end.

(** What is left of [r] to match once [c] is read. *)
Fixpoint derivative (c : N) (r : regex) : regex :=
  match r with
  | Never | Nothing => Never
  | Class p => if p c then Nothing else Never
  | Cat r1 r2 =>
      if nullable r1 then Alt (Cat (derivative c r1) r2) (derivative c r2)
      else Cat (derivative c r1) r2
  | Alt r1 r2 => Alt (derivative c r1) (derivative c r2)
  | Star r1 => Cat (derivative c r1) (Star r1)
  end.

(** [/^r$/.test(s)] *)
Definition test (r : regex) (s : js_string) : bool :=
  nullable (foldl (λ r c, derivative c r) r s).

(** The language of a pattern. *)
Inductive matches : regex → js_string → Prop :=
| matches_Nothing : matches Nothing []
| matches_Class p c : p c = true → matches (Class p) [c]
| matches_Cat r1 r2 s1 s2 : matches r1 s1 → matches r2 s2 → matches (Cat r1 r2) (s1 ++ s2)
| matches_Alt_l r1 r2 s : matches r1 s → matches (Alt r1 r2) s
| matches_Alt_r r1 r2 s : matches r2 s → matches (Alt r1 r2) s
| matches_Star_nil r : matches (Star r) []
| matches_Star_app r s1 s2 : matches r s1 → matches (Star r) s2 → matches (Star r) (s1 ++ s2).

End RegExp.

Module Utils.
Import RegExp.

(** A value of type [unknown], as far as the guards tell values apart. *)
Inductive unknown :=
| UString (s : js_string)
| UDate (d : Date)
| UOther.

(** [isValidDate] *)
Definition isValidDate (date : unknown) : bool :=
  match date with
  | UDate d => bool_decide (is_Some d)
  | _ => false
  end.

(** [isNonEmptyString] *)
Definition isNonEmptyString (value : unknown) : bool :=
  match value with
  | UString s => bool_decide (0 < length (trim s))%nat
  | _ => false
  end.

(** [[^\s@]] *)
Definition not_space_or_at (c : N) : bool := negb (is_whitespace c || (c =? 64)%N).

(** [/^[^\s@]+@[^\s@]+\.[^\s@]+$/] *)
Definition emailRegex : regex :=
  Cat (Plus (Class not_space_or_at))
    (Cat (Chr 64)
       (Cat (Plus (Class not_space_or_at))
          (Cat (Chr 46) (Plus (Class not_space_or_at))))).

(** [isValidEmail] *)
Definition isValidEmail (email : unknown) : bool :=
  match email with
  | UString s => test emailRegex s
  | _ => false
  end.

(** [[0-9a-f]], [[1-5]] and [[89ab]] under the [i] flag: the letters match
    in either case. *)
Definition hex (c : N) : bool :=
  ((48 <=? c) && (c <=? 57) || (97 <=? c) && (c <=? 102) || (65 <=? c) && (c <=? 70))%N.
Definition one_to_five (c : N) : bool := ((49 <=? c) && (c <=? 53))%N.
Definition eight_to_b (c : N) : bool :=
  ((c =? 56) || (c =? 57) || (c =? 97) || (c =? 98) || (c =? 65) || (c =? 66))%N.

(** [/^[0-9a-f]{8}-[0-9a-f]{4}-[1-5][0-9a-f]{3}-[89ab][0-9a-f]{3}-[0-9a-f]{12}$/i] *)
Definition uuidRegex : regex :=
  Cat (Times 8 (Class hex))
    (Cat (Chr 45)
       (Cat (Times 4 (Class hex))
          (Cat (Chr 45)
             (Cat (Class one_to_five)
                (Cat (Times 3 (Class hex))
                   (Cat (Chr 45)
                      (Cat (Class eight_to_b)
                         (Cat (Times 3 (Class hex))
                            (Cat (Chr 45) (Times 12 (Class hex))))))))))).

(** [isValidUUID] *)
Definition isValidUUID (i : unknown) : bool :=
  match i with
  | UString s => test uuidRegex s
  | _ => false
  end.

End Utils.


(** One part of an address as [isValidEmail] reads it: at least one
    character, none of them whitespace or [@]. *)
Definition address_part (s : js_string) : Prop :=
  s ≠ [] ∧ Forall (λ c, is_whitespace c = false ∧ c ≠ 64%N) s.

(** [n] hexadecimal digits, in either case. *)
Definition hex_digits (n : nat) (s : js_string) : Prop :=
  length s = n ∧ Forall (λ c, Utils.hex c = true) s.


(** ** What the components show *)

(** [error && ...] and [!error] in JSX: an error is shown when it is a
    string that is not empty. *)
Definition shown_error (error : option string) : option string :=
  match error with
  | Some e => if decide (e = "") then None else Some e
  | None => None
  end.

Module TodoListView.

(** The blocks of the list's main panel. *)
Inductive Block :=
| ErrorState (error : string)
| LoadingState
| EmptyState
| Items (sortedTodos : list Todo).

(** What [TodoList] returns: the statistics bar with total, active and
    completed counts, the main panel, the count line, the clean-up hint. *)
Record View := mkView {
  statsBar : option (nat * nat * nat);
  main : list Block;
  countLine : option nat;
  cleanupHint : bool
}.

(** [TodoList({ todos, isLoading, error })] *)
Definition render {S : TodoList.SortBuiltin}
  (todos : list Todo) (isLoading : bool) (error : option string) : View :=
  let total := length todos in
  let completed_count := length (filter (λ todo, completed todo = true) todos) in
  let active := length (filter (λ todo, completed todo = false) todos) in
  let sortedTodos := TodoList.presentationOrder todos in
  {| statsBar := if decide (0 < total)%nat then Some (total, active, completed_count) else None;
     main :=
       (match shown_error error with Some e => [ErrorState e] | None => [] end)
       ++ (if isLoading && bool_decide (total = 0%nat) then [LoadingState] else [])
       ++ (if negb isLoading && negb (bool_decide (is_Some (shown_error error)))
              && bool_decide (total = 0%nat)
           then [EmptyState] else [])
       ++ (if decide (0 < total)%nat then [Items sortedTodos] else []);
     countLine := if decide (5 < total)%nat then Some total else None;
     cleanupHint := bool_decide (10 < completed_count)%nat |}.

End TodoListView.

Module TodoApp.

(** The line under the list: how many tasks remain, or that all are done;
    the panel that celebrates; the line that encourages. *)
Record Footer := mkFooter {
  remaining : option nat;
  celebration : bool;
  encouragement : bool
}.

(** What [TodoApp] returns, the form and the headings apart: the button
    that clears the completed items with its count, the button that clears
    everything, the list, the footer, the welcome panel. *)
Record View := mkView {
  clearCompletedButton : option nat;
  clearAllButton : bool;
  todoList : TodoListView.View;
  footer : option Footer;
  welcome : bool
}.

(** [TodoApp()], from the state of [useTodos()]. *)
Definition render {S : TodoList.SortBuiltin} (s : Hooks.State) : View :=
  let todos := Hooks.todos s in
  let stats := Hooks.stats s in
  let isLoading := Hooks.isLoading s in
  let error := Hooks.combinedError s in
  {| clearCompletedButton :=
       if decide (0 < length todos)%nat then
         if decide (0 < Hooks.done_count stats)%nat then Some (Hooks.done_count stats)
         else None
       else None;
     clearAllButton := bool_decide (0 < length todos)%nat;
     todoList := TodoListView.render todos isLoading error;
     footer :=
       if decide (0 < length todos)%nat then
         Some {| remaining := if decide (0 < Hooks.active_count stats)%nat
                              then Some (Hooks.active_count stats) else None;
                 celebration := bool_decide (0 < Hooks.done_count stats)%nat
                                && bool_decide (Hooks.active_count stats = 0%nat);
                 encouragement := bool_decide (0 < Hooks.active_count stats)%nat
                                  && bool_decide (0 < Hooks.done_count stats)%nat |}
       else None;
     welcome := bool_decide (length todos = 0%nat) && negb isLoading
                && negb (bool_decide (is_Some (shown_error error))) |}.

End TodoApp.

(** * Properties *)

(** ** Strings *)

Section Strings.
Implicit Types (s : js_string) (c : N).

Lemma trim_nil : trim [] = [].
Proof. reflexivity. Qed.

Lemma trimStart_split s :
  ∃ w, s = w ++ trimStart s ∧ whitespace_only w ∧ starts_black (trimStart s).
Proof.
  induction s as [|c s (w & Hs & Hw & Hb)].
  { exists []. repeat split. constructor. }
  simpl. destruct (is_whitespace c) eqn:Hc.
  - exists (c :: w). split; [by rewrite Hs at 1|]. split; [by constructor|done].
  - exists []. repeat split; [constructor|done].
Qed.

Lemma trimStart_black s : starts_black s → trimStart s = s.
Proof. destruct s as [|c s]; [done|]. simpl. by intros ->. Qed.

Lemma trimStart_white s : whitespace_only s → trimStart s = [].
Proof. induction 1 as [|c s Hc _ IH]; [done|]. simpl. by rewrite Hc. Qed.

Lemma trimStart_idemp s : trimStart (trimStart s) = trimStart s.
Proof.
  destruct (trimStart_split s) as (_ & _ & _ & Hb). by apply trimStart_black.
Qed.

Lemma trimEnd_split s :
  ∃ w, s = trimEnd s ++ w ∧ whitespace_only w.
Proof.
  destruct (trimStart_split (reverse s)) as (w & Hs & Hw & _).
  exists (reverse w). split.
  - unfold trimEnd. rewrite <- reverse_app, <- Hs. by rewrite reverse_involutive.
  - unfold whitespace_only. by apply Forall_reverse.
Qed.

Lemma trimEnd_idemp s : trimEnd (trimEnd s) = trimEnd s.
Proof. unfold trimEnd. by rewrite reverse_involutive, trimStart_idemp. Qed.

Lemma trimEnd_black s : starts_black s → starts_black (trimEnd s).
Proof.
  destruct (trimEnd_split s) as (w & Hs & _).
  destruct (trimEnd s) as [|c r]; [done|]. rewrite Hs. done.
Qed.

Lemma trim_idemp s : trim (trim s) = trim s.
Proof.
  unfold trim. rewrite (trimStart_black (trimEnd _)).
  - apply trimEnd_idemp.
  - apply trimEnd_black. by destruct (trimStart_split s) as (_ & _ & _ & Hb).
Qed.

Lemma trim_nil_iff s : trim s = [] ↔ whitespace_only s.
Proof.
  split.
  - intros Ht. unfold trim in Ht.
    destruct (trimStart_split s) as (w & Hs & Hw & Hb).
    destruct (trimEnd_split (trimStart s)) as (w' & Hs' & Hw').
    rewrite Ht in Hs'. simpl in Hs'. rewrite Hs.
    apply Forall_app. split; [done|].
    rewrite Hs' in Hb |- *. destruct Hw' as [|c w' Hc _]; [done|].
    simpl in Hb. congruence.
  - intros Hw. unfold trim. by rewrite trimStart_white.
Qed.

End Strings.

(** ** The item store *)

Section ItemStore.
Import TodoService.
Implicit Types (s : list Todo) (i : js_string) (u : TodoUpdate) (todo : Todo) (k : nat).

Lemma toggled_toggled todo : toggled (toggled todo) = todo.
Proof. destruct todo as [? ? c ?]; unfold toggled; simpl. by rewrite negb_involutive. Qed.

Lemma id_toggled todo : id (toggled todo) = id todo.
Proof. done. Qed.

Lemma id_merged todo u : id (merged todo u) = id todo.
Proof. done. Qed.

Lemma updateTodo_lookup s i u k :
  updateTodo s i u !! k
  = (λ todo, if decide (id todo = i) then merged todo u else todo) <$> s !! k.
Proof. unfold updateTodo. by rewrite list_lookup_fmap. Qed.

Lemma toggleComplete_lookup s i k :
  toggleComplete s i !! k
  = (λ todo, if decide (id todo = i) then toggled todo else todo) <$> s !! k.
Proof. unfold toggleComplete. by rewrite list_lookup_fmap. Qed.

Lemma fmap_absent (f : Todo → Todo) s i :
  (∀ todo, todo ∈ s → id todo ≠ i) →
  (λ todo, if decide (id todo = i) then f todo else todo) <$> s = s.
Proof.
  intros Habs. induction s as [|todo s IH]; [done|]. simpl.
  rewrite decide_False by (apply Habs; left).
  f_equal. apply IH. intros t Ht. apply Habs. by right.
Qed.

Lemma deleteTodo_absent s i :
  (∀ todo, todo ∈ s → id todo ≠ i) → deleteTodo s i = s.
Proof.
  intros Habs. unfold deleteTodo. induction s as [|todo s IH]; [done|].
  rewrite filter_cons_True by (apply Habs; left).
  f_equal. apply IH. intros t Ht. apply Habs. by right.
Qed.

Lemma deleteTodo_spec s i todo :
  todo ∈ deleteTodo s i ↔ todo ∈ s ∧ id todo ≠ i.
Proof. unfold deleteTodo. rewrite list_elem_of_filter. tauto. Qed.

(** C6.  Toggling the same id twice gives back the collection, whether or
    not the id occurs in it; and one toggle leaves [id], [title] and
    [createdAt] of every item as they were, negating [completed] on exactly
    the items with that id. *)
Theorem toggleComplete_involution s i :
  toggleComplete (toggleComplete s i) i = s
  ∧ length (toggleComplete s i) = length s
  ∧ ∀ k todo, s !! k = Some todo →
      ∃ todo', toggleComplete s i !! k = Some todo'
        ∧ id todo' = id todo
        ∧ title todo' = title todo
        ∧ createdAt todo' = createdAt todo
        ∧ completed todo' = (if decide (id todo = i) then negb (completed todo)
                             else completed todo).
Proof.
  split; [|split].
  - unfold toggleComplete. rewrite <- list_fmap_compose.
    rewrite <- (list_fmap_id s) at 2. apply list_fmap_ext.
    intros _ todo _. simpl. destruct (decide (id todo = i)) as [Hi|Hi].
    + rewrite id_toggled, decide_True by done. apply toggled_toggled.
    + by rewrite decide_False.
  - unfold toggleComplete. apply length_fmap.
  - intros k todo Hk. rewrite toggleComplete_lookup, Hk. simpl.
    eexists; split; [done|]. by destruct (decide (id todo = i)).
Qed.

(** C7.  When no item of the collection has the id, [updateTodo] (with any
    update), [deleteTodo] and [toggleComplete] return a collection equal to
    the one they were given. *)
Theorem absent_id_noop s i u :
  i ∉ id <$> s →
  updateTodo s i u = s ∧ deleteTodo s i = s ∧ toggleComplete s i = s.
Proof.
  intros Hi.
  assert (Habs : ∀ todo, todo ∈ s → id todo ≠ i).
  { intros todo Hin <-. apply Hi, list_elem_of_fmap. eauto. }
  split; [|split].
  - by apply fmap_absent.
  - by apply deleteTodo_absent.
  - by apply fmap_absent.
Qed.


(** C5, amended.  [updateTodo] replaces each item that has the id by the
    merge of its fields with the provided ones and leaves the others alone:
    [id] and [createdAt] are kept, [completed] is the provided one if any,
    and the title is the provided one trimmed when a non-empty title is
    provided; with no title or the empty string the existing title stays. *)
Theorem updateTodo_merge s i u k todo :
  s !! k = Some todo →
  ∃ todo', updateTodo s i u !! k = Some todo'
    ∧ length (updateTodo s i u) = length s
    ∧ (id todo ≠ i → todo' = todo)
    ∧ (id todo = i →
         id todo' = id todo
         ∧ createdAt todo' = createdAt todo
         ∧ completed todo' = default (completed todo) (upd_completed u)
         ∧ (∀ t, upd_title u = Some t → t ≠ [] → title todo' = trim t)
         ∧ (upd_title u = Some [] → title todo' = title todo)
         ∧ (upd_title u = None → title todo' = title todo)).
Proof.
  intros Hk. rewrite updateTodo_lookup, Hk. simpl.
  eexists; split; [done|]. split; [apply length_fmap|].
  split; intros Hi.
  - by rewrite decide_False.
  - rewrite decide_True by done. unfold merged; simpl.
    repeat split; try done.
    + intros t -> Ht. by destruct t.
    + by intros ->.
    + by intros ->.
Qed.

Lemma absent_id_noop_witness :
(lit "3" ∉ id <$> [Samples.milk; Samples.eggs])
  ∧ updateTodo [Samples.milk; Samples.eggs] (lit "3") Samples.oat_milk
    = [Samples.milk; Samples.eggs]
  ∧ deleteTodo [Samples.milk; Samples.eggs] (lit "3") = [Samples.milk; Samples.eggs]
  ∧ toggleComplete [Samples.milk; Samples.eggs] (lit "3") = [Samples.milk; Samples.eggs].
Proof.
  assert (Hi : lit "3" ∉ id <$> [Samples.milk; Samples.eggs]).
  { apply (bool_decide_unpack _). vm_compute. exact I. }
  split; [exact Hi|].
  exact (absent_id_noop [Samples.milk; Samples.eggs] (lit "3") Samples.oat_milk Hi).
Defined.


Lemma updateTodo_merge_witness :
  [Samples.milk; Samples.eggs] !! 0%nat = Some Samples.milk
  ∧ title <$> (updateTodo [Samples.milk; Samples.eggs] (lit "1") Samples.oat_milk !! 0%nat)
    = Some (lit "Buy oat milk").
Proof.
  split; [reflexivity|].
  destruct (updateTodo_merge [Samples.milk; Samples.eggs] (lit "1") Samples.oat_milk
              0 Samples.milk eq_refl)
    as (todo' & -> & _ & _ & Hm).
  destruct (Hm eq_refl) as (_ & _ & _ & Ht & _).
  simpl. f_equal. rewrite (Ht _ eq_refl) by discriminate.
  vm_compute. reflexivity.
Defined.

(** C5 as worded fails on the empty string: [updateTodo] tests
    [updates.title] for truth, so [{ title: '' }] keeps the existing title
    instead of storing the empty one. *)
Lemma updateTodo_empty_title_kept :
  updateTodo [Samples.milk] (lit "1") Samples.empty_title = [Samples.milk]
  ∧ trim [] ≠ title Samples.milk
  ∧ ¬ provided_title_stored_trimmed [Samples.milk] (lit "1") Samples.empty_title.
Proof.
  split; [by vm_compute|]. split; [by vm_compute|].
  intros Hc. specialize (Hc 0%nat Samples.milk [] eq_refl eq_refl eq_refl).
  vm_compute in Hc. discriminate.
Qed.

End ItemStore.

(** ** ISO 8601: reading back what [toISOString] writes *)

Section Iso8601Facts.
Import Iso8601.

Lemma days_from_civil_from_days z :
  let '(y, m, d) := civil_from_days z in
  days_from_civil y m d = z ∧ 1 ≤ m ≤ 12 ∧ 1 ≤ d ≤ 31.
Proof.
  unfold civil_from_days, days_from_civil. cbv zeta.
  repeat match goal with |- context [if ?b then _ else _] => destruct b eqn:? end;
  (Z.to_euclidean_division_equations; lia).
Qed.

Lemma digit_of v : 0 ≤ v < 10 → digit (Z.to_N (48 + v)) = Some v.
Proof.
  intros Hv. unfold digit.
  assert (Hc : (48 ≤ Z.to_N (48 + v) ≤ 57)%N) by lia.
  destruct Hc as [?%N.leb_le ?%N.leb_le]. 
  replace ((48 <=? Z.to_N (48 + v))%N) with true by done.
  replace ((Z.to_N (48 + v) <=? 57)%N) with true by done.
  simpl. f_equal. lia.
Qed.

Lemma read_digits_digits n v rest :
  0 ≤ v < 10 ^ Z.of_nat n →
  read_digits n (digits n v ++ rest) = Some (v, rest).
Proof.
  revert v rest. induction n as [|n IH]; intros v rest Hv.
  - simpl in *. f_equal. f_equal. lia.
  - rewrite Nat2Z.inj_succ, Z.pow_succ_r in Hv by lia.
    cbn [digits read_digits]. rewrite <- app_assoc. 
    rewrite IH by (Z.to_euclidean_division_equations; lia). simpl.
    rewrite digit_of by (Z.to_euclidean_division_equations; lia). simpl.
    f_equal. f_equal. Z.to_euclidean_division_equations; lia.
Qed.

Lemma digits_head_digit n v rest c s :
  digits (S n) v ++ rest = c :: s → 0 ≤ v → (48 ≤ c ≤ 57)%N.
Proof.
  revert v rest c s. induction n as [|n IH]; intros v rest c s Heq Hv.
  - simpl in Heq. injection Heq as <- _. Z.to_euclidean_division_equations; lia.
  - change (digits (S (S n)) v) with (digits (S n) (v / 10) ++ [Z.to_N (48 + v mod 10)]) in Heq.
    rewrite <- app_assoc in Heq. apply IH in Heq; [done|].
    Z.to_euclidean_division_equations; lia.
Qed.

Lemma length_digits n v : length (digits n v) = n.
Proof.
  revert v. induction n as [|n IH]; intros v; [done|].
  cbn [digits]. rewrite length_app, IH. simpl. lia.
Qed.

#[local] Arguments digits : simpl never.
#[local] Arguments read_digits : simpl never.

Lemma read_year_string y rest :
  -1000000 < y < 1000000 →
  read_year (year_string y ++ rest) = Some (y, rest).
Proof.
  intros Hy. unfold year_string.
  destruct (decide (0 ≤ y ≤ 9999)) as [Hr|Hr].
  - destruct (digits 4 y ++ rest) as [|c s] eqn:Heq.
    { apply (f_equal length) in Heq. rewrite length_app, length_digits in Heq.
      simpl in Heq. lia. }
    pose proof (digits_head_digit _ _ _ _ _ Heq) as Hc.
    unfold read_year. rewrite !decide_False by lia.
    rewrite <- Heq. apply (read_digits_digits 4). change (Z.of_nat 4) with 4. lia.
  - unfold read_year. destruct (decide (y < 0)); cbn [app].
    + rewrite decide_False, decide_True by done.
      rewrite (read_digits_digits 6) by (change (Z.of_nat 6) with 6; lia).
      cbn. f_equal. f_equal. lia.
    + rewrite decide_True by done.
      rewrite (read_digits_digits 6) by (change (Z.of_nat 6) with 6; lia).
      f_equal. f_equal. lia.
Qed.

Lemma expect_cons c s : expect c (c :: s) = Some s.
Proof. unfold expect. by rewrite decide_True. Qed.

Lemma decode_toISOString t : valid_time t → decode (toISOString t) = Some t.
Proof.
  intros Ht. unfold toISOString, valid_time, msPerDay in *.
  pose proof (days_from_civil_from_days (t / 86400000)) as Hciv.
  destruct (civil_from_days (t / 86400000)) as [[y m] d] eqn:Hc.
  destruct Hciv as (Hdays & Hm & Hd).
  assert (Hy : -1000000 < y < 1000000).
  { unfold civil_from_days in Hc. cbv zeta in Hc. injection Hc as Hy _ _.
    rewrite <- Hy.
    repeat match goal with |- context [if ?b then _ else _] => destruct b end;
      Z.to_euclidean_division_equations; lia. }
  unfold decode.
  rewrite read_year_string by done. cbn [mbind option_bind].
  repeat (rewrite expect_cons; cbn [mbind option_bind];
          try (rewrite read_digits_digits
                 by (change (Z.of_nat 2) with 2; change (Z.of_nat 3) with 3;
                     Z.to_euclidean_division_equations; lia);
               cbn [mbind option_bind])).
  f_equal. rewrite Hdays. unfold msPerDay. Z.to_euclidean_division_equations; lia.
Qed.

Lemma parse_toISOString other t :
  valid_time t → parse other (toISOString t) = Some t.
Proof.
  intros Ht. unfold parse. rewrite decode_toISOString by done.
  by rewrite decide_True.
Qed.

Lemma toISOString_nonempty t : toISOString t ≠ [].
Proof.
  unfold toISOString. destruct (civil_from_days _) as [[y m] d].
  intros Heq. apply (f_equal length) in Heq. rewrite length_app in Heq.
  simpl in Heq. lia.
Qed.

End Iso8601Facts.

Lemma Iso8601_laws other object_string :
  @DateBuiltinsLaws (Iso8601.builtins other object_string).
Proof.
  split; simpl.
  - intros t _. pose proof (toISOString_nonempty t).
    by destruct (Iso8601.toISOString t).
  - intros t Ht. by apply parse_toISOString.
Qed.

(** The timestamps of the design document's sample data, and the ends of
    the range of valid dates. *)
Example toISOString_samples :
  Iso8601.toISOString 1737109800000 = lit "2025-01-17T10:30:00.000Z"
  ∧ Iso8601.toISOString (-1) = lit "1969-12-31T23:59:59.999Z"
  ∧ Iso8601.toISOString 8640000000000000 = lit "+275760-09-13T00:00:00.000Z"
  ∧ Iso8601.toISOString (-8640000000000000) = lit "-271821-04-20T00:00:00.000Z"
  ∧ Date_parse (DateBuiltins := Samples.engine) (lit "2025-01-17T09:15:00.000Z")
    = Some 1737105300000
  ∧ Date_parse (DateBuiltins := Samples.engine) (lit "not a date") = None.
Proof. repeat split; by vm_compute. Qed.

Example TimeClip_samples :
  TimeClip 1737109800000.75 = Some 1737109800000
  ∧ TimeClip (-1.5) = Some (-1)
  ∧ TimeClip 8.64e15 = Some 8640000000000000
  ∧ TimeClip 8.640000000000001e15 = None
  ∧ TimeClip PrimFloat.nan = None
  ∧ ToBoolean (JNum (-0)) = false.
Proof. repeat split; by vm_compute. Qed.

(** ** Persistence *)

Section PersistenceProps.
Import TodoService.
Context {B : DateBuiltins}.
Implicit Types (v : json) (now : Z) (w : Window) (st : Storage).

Lemma has_get v k : has v k = true ↔ is_Some (get v k).
Proof. unfold has. apply bool_decide_eq_true. Qed.

Lemma get_is_object v k r : get v k = Some r → ToBoolean v = true ∧ typeof_object v = true.
Proof. by destruct v. Qed.

Lemma restore_kept now v i t c :
  kept v i t c →
  restore now v
  = Some {| loaded_id := i; loaded_title := t; loaded_completed := c;
            loaded_createdAt :=
              match get v (lit "createdAt") with
              | Some d => if ToBoolean d then new_Date d else Some now
              | None => Some now
              end |}.
Proof.
  intros (Hi & Hti & Ht & Htt & Hc). unfold restore.
  destruct (get_is_object _ _ _ Hi) as [-> ->].
  assert (has v (lit "id") = true) as -> by (apply has_get; eauto).
  assert (has v (lit "title") = true) as -> by (apply has_get; eauto).
  assert (has v (lit "completed") = true) as -> by (apply has_get; eauto).
  simpl. rewrite Hi, Ht, Hc, Hti, Htt. reflexivity.
Qed.

Lemma restore_Some now v r :
  restore now v = Some r →
  kept v (loaded_id r) (loaded_title r) (loaded_completed r).
Proof.
  unfold restore, kept.
  destruct (negb (ToBoolean v) || _ || _ || _ || _); [done|].
  destruct (get v (lit "id")) as [i|]; [|done].
  destruct (get v (lit "title")) as [t|]; [|done].
  destruct (get v (lit "completed")) as [[]|]; try done.
  destruct (ToBoolean i) eqn:Hi, (ToBoolean t) eqn:Ht; simpl; try done.
  intros [= <-]. simpl. done.
Qed.

Lemma restore_None now v :
  restore now v = None ↔ ¬ ∃ i t c, kept v i t c.
Proof.
  split.
  - intros Hr (i & t & c & Hk). by rewrite (restore_kept _ _ _ _ _ Hk) in Hr.
  - intros Hn. destruct (restore now v) as [r|] eqn:Hr; [|done].
    exfalso. apply Hn. eauto using restore_Some.
Qed.

Lemma loadTodos_holding now t :
  loadTodos now (holding t)
  = match t with
    | Serialized (JArr parsedTodos) => omap (restore now) parsedTodos
    | _ => []
    end.
Proof.
  unfold loadTodos, holding, getItem. simpl.
  rewrite lookup_singleton_eq. by destruct t as [| |[]].
Qed.

(** C10.  An array element whose [id] and [title] are strings and whose
    [completed] is a boolean is still dropped by [loadTodos] when the [id]
    or the [title] is the empty string: the callback returns [null] for it,
    and the load of an array holding it is the load of the array without it. *)
Theorem loadTodos_drops_empty_strings now v i t c (pre post : list json) :
  get v (lit "id") = Some (JStr i) →
  get v (lit "title") = Some (JStr t) →
  get v (lit "completed") = Some (JBool c) →
  i = [] ∨ t = [] →
  restore now v = None
  ∧ loadTodos now (holding (JSON_stringify (JArr (pre ++ v :: post))))
    = loadTodos now (holding (JSON_stringify (JArr (pre ++ post)))).
Proof.
  intros Hi Ht Hc Hempty.
  assert (Hr : restore now v = None).
  { apply restore_None. intros (i' & t' & c' & Hi' & Hti & Ht' & Htt & _).
    rewrite Hi in Hi'. rewrite Ht in Ht'. simplify_eq.
    destruct Hempty; subst; discriminate. }
  split; [done|].
  rewrite !loadTodos_holding. simpl.
  rewrite !omap_app. simpl. by rewrite Hr.
Qed.

Lemma get_Todo_toJSON todo :
  get (Todo_toJSON todo) (lit "id") = Some (JStr (id todo))
  ∧ get (Todo_toJSON todo) (lit "title") = Some (JStr (title todo))
  ∧ get (Todo_toJSON todo) (lit "completed") = Some (JBool (completed todo))
  ∧ get (Todo_toJSON todo) (lit "createdAt") = Some (Date_toJSON (createdAt todo)).
Proof. repeat split. Qed.

Lemma restore_Todo_toJSON {L : DateBuiltinsLaws} now todo :
  well_formed todo → restore now (Todo_toJSON todo) = Some (as_loaded todo).
Proof.
  intros (Hid & Htitle & t & Hdate & Ht).
  destruct (get_Todo_toJSON todo) as (Hgi & Hgt & Hgc & Hgd).
  rewrite (restore_kept now _ (JStr (id todo)) (JStr (title todo)) (completed todo)).
  - rewrite Hgd, Hdate. simpl.
    rewrite toISOString_truthy, Date_parse_toISOString by done.
    unfold as_loaded. by rewrite Hdate.
  - unfold kept. rewrite Hgi, Hgt, Hgc. simpl.
    repeat split.
    + by destruct (id todo).
    + destruct (title todo); [|done]. unfold valid_title in Htitle.
      rewrite trim_nil in Htitle. simpl in Htitle. lia.
Qed.

Lemma omap_restore_toJSON {L : DateBuiltinsLaws} now (s : list Todo) :
  Forall well_formed s → omap (restore now) (Todo_toJSON <$> s) = as_loaded <$> s.
Proof.
  induction 1 as [|todo s Hwf _ IH]; [done|].
  cbn [fmap list_fmap omap list_omap].
  rewrite restore_Todo_toJSON by done. f_equal. apply IH.
Qed.

(** C1.  With a backing store that accepts the write and the read, saving a
    well-formed collection succeeds and loading right after returns that
    collection: same items in the same order, each with its id, title,
    completion flag and creation time to the millisecond. *)
Theorem save_load_roundtrip {L : DateBuiltinsLaws} now st (s : list Todo) :
  throws st SetItem = None →
  throws st GetItem = None →
  Forall well_formed s →
  ∃ w', saveTodos (WindowOf (Some st)) s = inr w'
        ∧ loadTodos now w' = as_loaded <$> s.
Proof.
  intros Hset Hget Hwf.
  unfold saveTodos, setItem. simpl. rewrite Hset.
  eexists; split; [done|].
  unfold loadTodos, getItem. simpl. rewrite Hget, lookup_insert_eq. simpl.
  by apply omap_restore_toJSON.
Qed.


End PersistenceProps.

Lemma save_load_roundtrip_witness :
  Forall well_formed [Samples.milk; Samples.eggs]
  ∧ ∃ w', TodoService.saveTodos (B := Samples.engine)
            (WindowOf (Some (mkStorage ∅ (λ _, None)))) [Samples.milk; Samples.eggs]
          = inr w'
          ∧ TodoService.loadTodos (B := Samples.engine) 5000 w'
            = TodoService.as_loaded <$> [Samples.milk; Samples.eggs].
Proof.
  assert (Hwf : Forall well_formed [Samples.milk; Samples.eggs]).
  { assert (Hm : well_formed Samples.milk).
    { split; [discriminate|]. split; [unfold valid_title; simpl; lia|].
      exists 1000. split; [reflexivity|]. unfold valid_time. lia. }
    assert (He : well_formed Samples.eggs).
    { split; [discriminate|]. split; [unfold valid_title; simpl; lia|].
      exists 2000. split; [reflexivity|]. unfold valid_time. lia. }
    exact (Forall_cons_2 _ _ _ Hm (Forall_cons_2 _ _ _ He (Forall_nil_2 _))). }
  split; [exact Hwf|].
  exact (save_load_roundtrip (B := Samples.engine) (L := Iso8601_laws _ _)
           5000 (mkStorage ∅ (λ _, None)) [Samples.milk; Samples.eggs]
           eq_refl eq_refl Hwf).
Defined.


Lemma loadTodos_drops_empty_strings_witness :
  get Samples.unnamed (lit "id") = Some (JStr [])
  ∧ TodoService.restore (B := Samples.engine) 5000 Samples.unnamed = None
  ∧ TodoService.loadTodos (B := Samples.engine) 5000
      (holding (JSON_stringify (JArr [Samples.unnamed])))
    = [].
Proof.
  split; [reflexivity|].
  destruct (loadTodos_drops_empty_strings (B := Samples.engine) 5000 Samples.unnamed
              [] (lit "x") false [] [] eq_refl eq_refl eq_refl (or_introl eq_refl))
    as [Hr Hl].
  split; [exact Hr|]. etrans; [exact Hl|]. reflexivity.
Defined.

(** ** The hooks *)

Section HookProps.
Import TodoService Hooks.
Context {B : DateBuiltins}.
Implicit Types (s : State) (a : Intent) (todo : Todo) (w : Window) (st : Storage) (e : Error).

Lemma validateTodoTitle_valid t :
  isValid (validateTodoTitle t) = true ↔ valid_title t.
Proof.
  unfold validateTodoTitle, valid_title.
  destruct t as [|c t]; cbn [truthy_string negb].
  - split; [done|]. rewrite trim_nil. simpl. lia.
  - repeat case_decide; cbn [isValid]; split; try done; lia.
Qed.

Lemma valid_title_trim t : valid_title t → valid_title (trim t).
Proof. unfold valid_title. by rewrite trim_idemp. Qed.

Lemma valid_title_black t : valid_title t → t ≠ [] ∧ ¬ whitespace_only t.
Proof.
  unfold valid_title. intros Hlen. split.
  - intros ->. rewrite trim_nil in Hlen. simpl in Hlen. lia.
  - intros Hw%trim_nil_iff. rewrite Hw in Hlen. simpl in Hlen. lia.
Qed.

Lemma Forall_kept {A} (P Q : A → Prop) `{∀ x, Decision (Q x)} (l : list A) :
  Forall P l → Forall P (filter Q l).
Proof.
  rewrite !Forall_forall. intros Hl x [_ Hx]%list_elem_of_filter. by apply Hl.
Qed.

Lemma todos_setValue value s :
  todos (setValue value s) = match value with inl v => v | inr f => f (todos s) end.
Proof.
  unfold setValue. destruct (localStorage_of (window s)) as [e|[st|]]; [done| |done].
  by destruct (setItem _ _ _).
Qed.

Lemma todos_commit updatedTodos s : todos (commit updatedTodos s) = updatedTodos.
Proof.
  unfold commit. destruct (saveTodos _ _); simpl; apply todos_setValue.
Qed.

Lemma todos_rejected v s : todos (rejected v s) = todos s.
Proof. done. Qed.

Lemma todos_clearAllTodos s : todos (clearAllTodos s) = [].
Proof.
  unfold clearAllTodos. destruct (clearTodos _); simpl; apply todos_setValue.
Qed.

Lemma dispatch_titles_valid s a : titles_valid (todos s) → titles_valid (todos (dispatch s a)).
Proof.
  unfold titles_valid. intros Hs. destruct a as [uuid now input|i u|i|i| |]; simpl.
  - unfold addTodo. destruct (isValid _) eqn:Hv; simpl.
    + rewrite todos_commit. apply Forall_app. split; [done|].
      constructor; [|done]. simpl. by apply valid_title_trim, validateTodoTitle_valid.
    + by rewrite ?todos_rejected.
  - assert (Hmerge : ∀ t, upd_title u = Some t → valid_title t →
              Forall (λ todo, valid_title (title todo)) (TodoService.updateTodo (todos s) i u)).
    { intros t Ht Hvt. unfold TodoService.updateTodo. apply Forall_fmap.
      eapply Forall_impl; [exact Hs|]. intros todo Htodo. simpl.
      case_decide; [|done]. unfold merged. simpl. rewrite Ht.
      destruct t; [done|]. by apply valid_title_trim. }
    unfold updateTodo. destruct (upd_title u) as [t|] eqn:Ht.
    + destruct (isValid _) eqn:Hv; simpl.
      * rewrite todos_commit. apply (Hmerge t); [done|]. by apply validateTodoTitle_valid.
      * by rewrite ?todos_rejected.
    + rewrite todos_commit. unfold TodoService.updateTodo. apply Forall_fmap.
      eapply Forall_impl; [exact Hs|]. intros todo Htodo. simpl.
      case_decide; [|done]. unfold merged. simpl. by rewrite Ht.
  - unfold deleteTodo. rewrite todos_commit. by apply Forall_kept.
  - unfold toggleComplete. rewrite todos_commit.
    unfold TodoService.toggleComplete. apply Forall_fmap.
    eapply Forall_impl; [exact Hs|]. intros todo Htodo. simpl. by case_decide.
  - rewrite todos_clearAllTodos. constructor.
  - unfold clearCompletedTodos. rewrite todos_commit. by apply Forall_kept.
Qed.

Lemma run_titles_valid s intents :
  titles_valid (todos s) → titles_valid (todos (run s intents)).
Proof.
  revert s. induction intents as [|a intents IH]; intros s Hs; [done|].
  simpl. apply IH. by apply dispatch_titles_valid.
Qed.

(** C4.  Starting from a state whose titles are valid (the empty collection
    is one), every state the intents lead to holds only titles that are
    not empty and not whitespace only: their trimmed length is between 1
    and 500, whatever the backing store does. *)
Theorem title_invariant s intents :
  Forall (λ todo, valid_title (title todo)) (todos s) →
  Forall (λ todo, title todo ≠ [] ∧ ¬ whitespace_only (title todo)
                  ∧ valid_title (title todo))
         (todos (run s intents)).
Proof.
  intros Hs. eapply Forall_impl; [by apply run_titles_valid|].
  intros todo Hv. simpl. destruct (valid_title_black _ Hv). done.
Qed.

(** The counts of [stats] add up: completed and active items together are
    all the items of the collection. *)
Theorem stats_add_up s :
  (done_count (stats s) + active_count (stats s) = total (stats s))%nat
  ∧ total (stats s) = length (todos s).
Proof.
  split; [|done]. unfold stats; simpl. induction (todos s) as [|todo l IH]; [done|].
  rewrite !filter_cons.
  destruct (completed todo); repeat case_decide; try done; simpl; lia.
Qed.

(** Adding validates first.  A title of 1 to 500 characters once trimmed
    is appended as a new active item holding the trimmed title, the drawn
    identifier and the clock reading; any other title leaves the collection
    as it was and reports the matching message. *)
Theorem addTodo_validated uuid now input s :
  (valid_title (input_title input) →
     todos (addTodo uuid now input s)
     = todos s ++ [ mkTodo uuid (trim (input_title input)) false (Some now) ])
  ∧ (¬ valid_title (input_title input) →
       todos (addTodo uuid now input s) = todos s
       ∧ window (addTodo uuid now input s) = window s
       ∧ ∃ msg, error (addTodo uuid now input s) = Some msg
           ∧ (trim (input_title input) = [] → msg = msg_required ∨ msg = msg_empty)
           ∧ ((500 < length (trim (input_title input)))%nat → msg = msg_too_long)).
Proof.
  unfold addTodo. split; intros Hv.
  - apply validateTodoTitle_valid in Hv as ->. simpl. by rewrite todos_commit.
  - destruct (isValid _) eqn:Hi; [by apply validateTodoTitle_valid in Hi|].
    simpl. do 2 (split; [done|]). clear Hi. revert Hv.
    unfold validateTodoTitle, valid_title.
    destruct (input_title input) as [|c t]; cbn [truthy_string negb].
    + intros _. eexists; split; [done|]. split; [by left|]. rewrite trim_nil. simpl. lia.
    + repeat case_decide; cbn [TodoService.error default]; intros Hv;
        (eexists; split; [done|]); split; try lia.
      * by right.
      * intros Ht. rewrite Ht in *. simpl in *. lia.
      * done.
Qed.

Lemma saveTodos_no_store w updated :
  localStorage_of w = inr None → saveTodos w updated = inr w.
Proof. unfold saveTodos. by intros ->. Qed.

Lemma saveTodos_rejected w e updated :
  write_throws w e → saveTodos w updated = inl (saveTodos_catch e).
Proof.
  unfold saveTodos, setItem. by intros [->|(st & -> & ->)].
Qed.

Lemma msg_quota_distinct :
  msg_quota ≠ msg_save_failed ∧ ∀ m, msg_quota ≠ msg_save_failed_prefix +:+ m.
Proof. split; [done|]. intros m. discriminate. Qed.

Lemma setValue_no_store value s :
  localStorage_of (window s) = inr None →
  setValue value s
  = mkState (match value with inl v => v | inr f => f (todos s) end)
            (Some msg_not_persisted) (isLoading s) (error s) (window s).
Proof. unfold setValue. by intros ->. Qed.

Lemma setValue_rejected value s e :
  write_throws (window s) e →
  setValue value s
  = mkState (match value with inl v => v | inr f => f (todos s) end)
            (Some (if decide (name e = "QuotaExceededError") then msg_quota
                   else msg_save_failed_prefix +:+ message e))
            (isLoading s) (error s) (window s).
Proof. unfold setValue, setItem. by intros [->|(st & -> & ->)]. Qed.

(** C3, amended.  With no [window] or no [window.localStorage],
    [saveTodos] does not fail: it returns without writing, and it is
    [setValue] that records the warning that nothing is persisted.  When
    the write throws, be it the read of [window.localStorage] or [setItem],
    [saveTodos] throws: for a [QuotaExceededError] the message about
    storage space, which differs from the generic one, and for any other
    error the generic one; [setValue] records the message about storage
    space, or the generic prefix followed by the error's own message.  In
    every case the intent's new collection is the one in memory, the store
    is left as it was, and the hook reports the message. *)
Theorem save_error_contract s (updated : list Todo) :
  (localStorage_of (window s) = inr None →
     saveTodos (window s) updated = inr (window s)
     ∧ storageError (setTodos updated s) = Some msg_not_persisted
     ∧ todos (commit updated s) = updated
     ∧ window (commit updated s) = window s
     ∧ combinedError (commit updated s) = Some msg_not_persisted)
  ∧ (∀ e, write_throws (window s) e → name e = "QuotaExceededError" →
       saveTodos (window s) updated = inl (new_Error msg_quota)
       ∧ storageError (setTodos updated s) = Some msg_quota
       ∧ todos (commit updated s) = updated
       ∧ window (commit updated s) = window s
       ∧ combinedError (commit updated s) = Some msg_quota)
  ∧ (∀ e, write_throws (window s) e → name e ≠ "QuotaExceededError" →
       saveTodos (window s) updated = inl (new_Error msg_save_failed)
       ∧ storageError (setTodos updated s)
         = Some (msg_save_failed_prefix +:+ message e)
       ∧ todos (commit updated s) = updated
       ∧ window (commit updated s) = window s
       ∧ combinedError (commit updated s) = Some msg_save_failed)
  ∧ msg_quota ≠ msg_save_failed
  ∧ (∀ m, msg_quota ≠ msg_save_failed_prefix +:+ m).
Proof.
  split; [|split; [|split; [|apply msg_quota_distinct]]].
  - intros Hw. split; [by apply saveTodos_no_store|].
    unfold commit, setTodos. rewrite !setValue_no_store by done. simpl.
    rewrite saveTodos_no_store by done. done.
  - intros e Hw Hq.
    split; [by rewrite (saveTodos_rejected _ e); unfold saveTodos_catch; rewrite ?decide_True|].
    unfold commit, setTodos. rewrite !(setValue_rejected _ _ e) by done. simpl.
    rewrite (saveTodos_rejected _ e) by done. unfold saveTodos_catch.
    rewrite !decide_True by done. done.
  - intros e Hw Hq.
    split; [by rewrite (saveTodos_rejected _ e); unfold saveTodos_catch; rewrite ?decide_False|].
    unfold commit, setTodos. rewrite !(setValue_rejected _ _ e) by done. simpl.
    rewrite (saveTodos_rejected _ e) by done. unfold saveTodos_catch.
    rewrite !decide_False by done. done.
Qed.

End HookProps.

Lemma title_invariant_witness :
  Forall (λ todo, valid_title (title todo)) (Hooks.todos (Hooks.initial NoWindow))
  ∧ Forall (λ todo, title todo ≠ [] ∧ ¬ whitespace_only (title todo)
                    ∧ valid_title (title todo))
      (Hooks.todos (Hooks.run (B := Samples.engine) (Hooks.initial NoWindow)
                      Samples.session)).
Proof.
  assert (Hs : Forall (λ todo, valid_title (title todo))
                 (Hooks.todos (Hooks.initial NoWindow))) by constructor.
  split; [exact Hs|].
  exact (title_invariant (B := Samples.engine) (Hooks.initial NoWindow)
           Samples.session Hs).
Defined.

(** The sample session ends with the one item, renamed and completed; the
    two blank titles were turned away. *)
Example session_result :
  Hooks.todos (Hooks.run (B := Samples.engine) (Hooks.initial NoWindow) Samples.session)
  = [ mkTodo (lit "1") (lit "Buy oat milk") true (Some 1000) ]
  ∧ Hooks.combinedError
      (Hooks.run (B := Samples.engine) (Hooks.initial NoWindow) Samples.session)
    = Some Hooks.msg_not_persisted.
Proof. split; by vm_compute. Qed.

(** On a full store the sample session ends with the same item in memory,
    and the hook reports the message about storage space. *)
Example session_on_full_store :
  Hooks.todos
    (Hooks.run (B := Samples.engine) (Hooks.initial (WindowOf (Some Samples.full_store)))
       Samples.session)
  = [ mkTodo (lit "1") (lit "Buy oat milk") true (Some 1000) ]
  ∧ Hooks.combinedError
      (Hooks.run (B := Samples.engine) (Hooks.initial (WindowOf (Some Samples.full_store)))
         Samples.session)
    = Some TodoService.msg_quota.
Proof. split; by vm_compute. Qed.

(** With a blocked storage [saveTodos] throws the generic error; the
    sample session ends with the same item in memory, and the hook reports
    the generic message. *)
Example session_on_blocked_store :
  TodoService.saveTodos (B := Samples.engine) Samples.blocked [Samples.milk]
  = inl (new_Error TodoService.msg_save_failed)
  ∧ Hooks.todos (Hooks.run (B := Samples.engine) (Hooks.initial Samples.blocked)
                   Samples.session)
    = [ mkTodo (lit "1") (lit "Buy oat milk") true (Some 1000) ]
  ∧ Hooks.combinedError
      (Hooks.run (B := Samples.engine) (Hooks.initial Samples.blocked) Samples.session)
    = Some TodoService.msg_save_failed.
Proof. split; [|split]; by vm_compute. Qed.

(** C3 as worded fails for a missing store: [saveTodos] returns normally. *)
Lemma saveTodos_silent_without_store :
  TodoService.saveTodos (B := Samples.engine) NoWindow [Samples.milk] = inr NoWindow
  ∧ TodoService.saveTodos (B := Samples.engine) (WindowOf None) [Samples.milk]
    = inr (WindowOf None)
  ∧ ¬ save_fails_without_store (B := Samples.engine).
Proof.
  split; [done|]. split; [done|].
  intros Hc. destruct (Hc NoWindow [Samples.milk] eq_refl) as [e He]. discriminate.
Qed.

(** ** The shown order *)

Section SortFacts.
Context {A : Type} (comparefn : A → A → option Z).
Abbreviation insert_sorted := (TodoList.insert_sorted comparefn).
Abbreviation insertion_sort := (TodoList.insertion_sort comparefn).
Abbreviation SortCompare := (TodoList.SortCompare comparefn).
Abbreviation consistent := (TodoList.consistent comparefn).
Implicit Types (x y : A) (l : list A).

Lemma insert_sorted_perm x l : insert_sorted x l ≡ₚ x :: l.
Proof.
  induction l as [|y l IH]; [done|]. simpl. case_decide; [done|].
  rewrite IH. apply Permutation_swap.
Qed.

Lemma insertion_sort_perm l : insertion_sort l ≡ₚ l.
Proof.
  induction l as [|x l IH]; [done|]. simpl.
  rewrite insert_sorted_perm. by f_equiv.
Qed.

(** Sortedness for any transitive relation the comparator decides on the
    elements at hand. *)
Section Sorted.
Context (V : A → Prop) (R : A → A → Prop).
Hypothesis R_trans : ∀ x y z, R x y → R y z → R x z.
Hypothesis R_le : ∀ x y, V x → V y → SortCompare x y ≤ 0 → R x y.
Hypothesis R_gt : ∀ x y, V x → V y → ¬ SortCompare x y ≤ 0 → R y x.

Lemma insert_sorted_sorted x l :
  V x → Forall V l → StronglySorted R l → StronglySorted R (insert_sorted x l).
Proof.
  intros Hx Hl Hs. induction Hs as [|y l Hs IH Hy]; simpl.
  - repeat constructor.
  - apply Forall_cons in Hl as [Hvy Hl]. case_decide as Hc.
    + constructor; [by constructor|]. constructor; [by apply R_le|].
      eapply Forall_impl; [exact Hy|]. intros z Hz. simpl in Hz.
      eapply R_trans; [|exact Hz]. by apply R_le.
    + constructor; [by apply IH|].
      rewrite insert_sorted_perm. constructor; [by apply R_gt|done].
Qed.

Lemma insertion_sort_sorted l : Forall V l → StronglySorted R (insertion_sort l).
Proof.
  induction 1 as [|x l Hx Hl IH]; simpl; [constructor|].
  apply insert_sorted_sorted; [done| |done]. by rewrite insertion_sort_perm.
Qed.

End Sorted.

(** Stability: elements the comparator never sorts after one another keep
    their order. *)
Lemma filter_insert_sorted (P : A → Prop) `{∀ x, Decision (P x)} x l :
  (∀ y, y ∈ l → P x → P y → SortCompare x y ≤ 0) →
  filter P (insert_sorted x l) = filter P (x :: l).
Proof.
  intros HP. induction l as [|y l IH]; [done|]. simpl. case_decide as Hc; [done|].
  rewrite filter_cons, IH, !filter_cons by (intros; apply HP; [by right|done..]).
  destruct (decide (P y)) as [Hy|]; [|done].
  destruct (decide (P x)) as [Hx|]; [|done].
  destruct Hc. apply HP; [left|done..].
Qed.

Lemma filter_insertion_sort (P : A → Prop) `{∀ x, Decision (P x)} l :
  (∀ x y, x ∈ l → y ∈ l → P x → P y → SortCompare x y ≤ 0) →
  filter P (insertion_sort l) = filter P l.
Proof.
  intros HP. induction l as [|x l IH]; [done|]. simpl.
  rewrite filter_insert_sorted.
  - rewrite !filter_cons, IH; [done|]. intros; apply HP; by try right.
  - intros y Hy. rewrite insertion_sort_perm in Hy. apply HP; [left|by right].
Qed.

(** What consistency gives: the comparator orders the elements as a total
    preorder. *)
Lemma consistent_flip l a b :
  consistent l → a ∈ l → b ∈ l → ¬ SortCompare b a < 0 → SortCompare a b ≤ 0.
Proof.
  intros (_ & Hrefl & Hsym & _ & _ & Hgt) Ha Hb Hba.
  destruct (Z.lt_trichotomy (SortCompare a b) 0) as [|[|Hab]]; [lia..|].
  destruct (Z.lt_trichotomy (SortCompare b a) 0) as [|[Hz|Hz]]; [lia| |].
  - apply Hsym in Hz; [lia|done..].
  - pose proof (Hgt a b a Ha Hb Ha) as Haa. pose proof (Hrefl a Ha). lia.
Qed.

Lemma consistent_antisym l a b :
  consistent l → a ∈ l → b ∈ l → SortCompare a b ≤ 0 → ¬ SortCompare b a < 0.
Proof.
  intros (_ & Hrefl & Hsym & _ & Hlt & _) Ha Hb Hab Hba.
  destruct (Z.lt_trichotomy (SortCompare a b) 0) as [Hz|[Hz|]]; [| |lia].
  - pose proof (Hlt a b a Ha Hb Ha) as Haa. pose proof (Hrefl a Ha). lia.
  - apply Hsym in Hz; [lia|done..].
Qed.

Lemma consistent_trans l a b c :
  consistent l → a ∈ l → b ∈ l → c ∈ l →
  SortCompare a b ≤ 0 → SortCompare b c ≤ 0 → SortCompare a c ≤ 0.
Proof.
  intros Hc Ha Hb Hc' Hab Hbc.
  apply (consistent_flip l); [done..|]. intros Hca.
  pose proof Hc as (_ & Hrefl & Hsym & Heq & Hlt & _).
  destruct (Z.lt_trichotomy (SortCompare a b) 0) as [Hab'|[Hab'|]]; [| |lia];
    destruct (Z.lt_trichotomy (SortCompare b c) 0) as [Hbc'|[Hbc'|]]; try lia.
  - pose proof (Hlt a b c Ha Hb Hc'). pose proof (Hlt c a c Hc' Ha Hc').
    pose proof (Hrefl c Hc'). lia.
  - pose proof (Hlt c a b Hc' Ha Hb Hca Hab') as Hcb.
    apply Hsym in Hbc'; [lia|done..].
  - pose proof (Hlt b c a Hb Hc' Ha Hbc' Hca) as Hba.
    apply Hsym in Hab'; [lia|done..].
  - pose proof (Heq a b c Ha Hb Hc' Hab' Hbc') as Hac.
    apply Hsym in Hac; [lia|done..].
Qed.

(** Sorting by insertion does what ECMAScript asks of a sort. *)
Lemma insertion_sort_lookup l i j a b :
  consistent l → (i < j)%nat →
  insertion_sort l !! i = Some a → insertion_sort l !! j = Some b →
  ¬ SortCompare b a < 0.
Proof.
  intros Hc Hij Hi Hj.
  assert (Hs : StronglySorted (λ x y, x ∈ l ∧ y ∈ l ∧ SortCompare x y ≤ 0)
                 (insertion_sort l)).
  { apply (insertion_sort_sorted (λ x, x ∈ l)).
    - intros x y z (Hx & Hy & Hxy) (_ & Hz & Hyz). split; [done|]. split; [done|].
      by apply (consistent_trans l x y z).
    - by intros x y Hx Hy Hxy.
    - intros x y Hx Hy Hxy. split; [done|]. split; [done|].
      apply (consistent_flip l); [done..|lia].
    - by apply Forall_forall. }
  assert (Hab : ∀ (R : A → A → Prop) r, StronglySorted R r →
                  ∀ i j, (i < j)%nat → r !! i = Some a → r !! j = Some b → R a b).
  { clear. intros R r Hs. induction Hs as [|x r Hs IH Hx]; intros i j Hij Hi Hj; [done|].
    destruct j as [|j]; [lia|]. simpl in Hj. destruct i as [|i]; simpl in Hi.
    - injection Hi as ->. rewrite Forall_forall in Hx. apply Hx.
      by eapply list_elem_of_lookup_2.
    - apply (IH i j); [lia|done..]. }
  destruct (Hab _ _ Hs i j Hij Hi Hj) as (Ha & Hb & Hle).
  by apply (consistent_antisym l).
Qed.

Lemma insertion_sort_stable l x :
  consistent l → x ∈ l →
  filter (λ y, SortCompare x y = 0) (insertion_sort l)
  = filter (λ y, SortCompare x y = 0) l.
Proof.
  intros (_ & _ & Hsym & Heq & _) Hx. apply filter_insertion_sort.
  intros a b Ha Hb Hxa Hxb.
  rewrite (Heq a x b); [done..| |done]. by apply Hsym.
Qed.

End SortFacts.

Lemma by_insertion_laws : TodoList.SortBuiltinLaws (S := TodoList.by_insertion).
Proof.
  split; intros A comparefn l Hc.
  - apply insertion_sort_perm.
  - intros i j a b. by apply insertion_sort_lookup.
  - intros x. by apply insertion_sort_stable.
Qed.

Lemma StronglySorted_lookup {A} (R : A → A → Prop) (l : list A) (i j : nat) a b :
  StronglySorted R l → (i < j)%nat → l !! i = Some a → l !! j = Some b → R a b.
Proof.
  intros Hs. revert i j. induction Hs as [|x l Hs IH Hx]; intros i j Hij Hi Hj; [done|].
  destruct j as [|j]; [lia|]. simpl in Hj. destruct i as [|i]; simpl in Hi.
  - injection Hi as ->. rewrite Forall_forall in Hx. apply Hx.
    by eapply list_elem_of_lookup_2.
  - apply (IH i j); [lia|done..].
Qed.

Lemma StronglySorted_of_lookup {A} (R : A → A → Prop) (l : list A) :
  (∀ i j a b, (i < j)%nat → l !! i = Some a → l !! j = Some b → R a b) →
  StronglySorted R l.
Proof.
  induction l as [|x l IH]; intros Hl; constructor.
  - apply IH. intros i j a b Hij Hi Hj. apply (Hl (S i) (S j)); [lia|done..].
  - apply Forall_forall. intros y [j Hj]%list_elem_of_lookup_1.
    apply (Hl 0%nat (S j)); [lia|done..].
Qed.

Lemma filter_ext_elem {A} (P Q : A → Prop) `{∀ x, Decision (P x)} `{∀ x, Decision (Q x)}
  (l : list A) :
  (∀ x, x ∈ l → P x ↔ Q x) → filter P l = filter Q l.
Proof.
  induction l as [|x l IH]; intros HPQ; [done|].
  rewrite !filter_cons, IH by (intros; apply HPQ; by right).
  pose proof (HPQ x ltac:(left)) as Hx.
  destruct (decide (P x)), (decide (Q x)); tauto.
Qed.

Section PresentationOrder.
Import TodoList.
Implicit Types (a b : Todo) (l : list Todo) (h : heap).

(** With valid dates the comparator is the difference of the keys. *)
Lemma SortCompare_dated a b ta tb :
  createdAt a = Some ta → createdAt b = Some tb →
  compare a b = Some (SortCompare compare a b)
  ∧ SortCompare compare a b
    = if bool_decide (completed a = completed b) then tb - ta
      else if completed a then 1 else -1.
Proof.
  unfold SortCompare, compare. intros -> ->.
  by destruct (completed a), (completed b).
Qed.

Lemma compare_consistent l : Forall has_date l → consistent compare l.
Proof.
  rewrite Forall_forall. intros Hd.
  assert (Hcmp : ∀ a b, a ∈ l → b ∈ l →
            ∃ ta tb, createdAt a = Some ta ∧ createdAt b = Some tb
              ∧ compare a b = Some (SortCompare compare a b)
              ∧ SortCompare compare a b
                = if bool_decide (completed a = completed b) then tb - ta
                  else if completed a then 1 else -1).
  { intros a b [ta Ha]%Hd [tb Hb]%Hd. exists ta, tb.
    split; [done|]. split; [done|]. by apply SortCompare_dated. }
  split; [|split; [|split; [|split; [|split]]]].
  - intros a b Ha Hb. destruct (Hcmp a b Ha Hb) as (? & ? & _ & _ & -> & _). eauto.
  - intros a Ha. destruct (Hcmp a a Ha Ha) as (ta & ta' & H1 & H2 & _ & ->).
    rewrite bool_decide_eq_true_2 by done. simplify_eq. lia.
  - intros a b Ha Hb.
    destruct (Hcmp a b Ha Hb) as (ta & tb & H1 & H2 & _ & ->).
    destruct (Hcmp b a Hb Ha) as (tb' & ta' & H3 & H4 & _ & ->). simplify_eq.
    destruct (completed a), (completed b); simpl; lia.
  - intros a b c Ha Hb Hc.
    destruct (Hcmp a b Ha Hb) as (ta & tb & H1 & H2 & _ & ->).
    destruct (Hcmp b c Hb Hc) as (tb' & tc & H3 & H4 & _ & ->).
    destruct (Hcmp a c Ha Hc) as (ta' & tc' & H5 & H6 & _ & ->). simplify_eq.
    destruct (completed a), (completed b), (completed c); simpl; lia.
  - intros a b c Ha Hb Hc.
    destruct (Hcmp a b Ha Hb) as (ta & tb & H1 & H2 & _ & ->).
    destruct (Hcmp b c Hb Hc) as (tb' & tc & H3 & H4 & _ & ->).
    destruct (Hcmp a c Ha Hc) as (ta' & tc' & H5 & H6 & _ & ->). simplify_eq.
    destruct (completed a), (completed b), (completed c); simpl; lia.
  - intros a b c Ha Hb Hc.
    destruct (Hcmp a b Ha Hb) as (ta & tb & H1 & H2 & _ & ->).
    destruct (Hcmp b c Hb Hc) as (tb' & tc & H3 & H4 & _ & ->).
    destruct (Hcmp a c Ha Hc) as (ta' & tc' & H5 & H6 & _ & ->). simplify_eq.
    destruct (completed a), (completed b), (completed c); simpl; lia.
Qed.

Lemma compare_shown_before a b :
  has_date a → has_date b → SortCompare compare a b ≤ 0 ↔ shown_before a b.
Proof.
  unfold SortCompare, compare, shown_before. intros [ta Ha] [tb Hb]. rewrite Ha, Hb.
  destruct (completed a), (completed b); simpl; split; intros Hab.
  all: try (destruct Hab as [[? ?]|(? & ? & ? & ? & ? & ?)]; simplify_eq; lia).
  all: try lia.
  all: first [ by left | right; split; [done|]; exists ta, tb; repeat split; lia ].
Qed.

Lemma compare_same_key a b :
  has_date a → has_date b → SortCompare compare a b = 0 ↔ sort_key a = sort_key b.
Proof.
  unfold SortCompare, compare, sort_key. intros [ta Ha] [tb Hb]. rewrite Ha, Hb.
  destruct (completed a), (completed b); simpl; split; intros Hab;
    first [lia | done | by injection Hab; lia | f_equal; f_equal; lia].
Qed.

Lemma shown_before_trans a b c : shown_before a b → shown_before b c → shown_before a c.
Proof.
  unfold shown_before.
  intros [[? ?]|(? & ta & tb & ? & ? & ?)] [[? ?]|(? & tb' & tc & ? & ? & ?)].
  - congruence.
  - left. split; congruence.
  - left. split; congruence.
  - right. split; [congruence|]. exists ta, tc. simplify_eq. repeat split; try done. lia.
Qed.

Lemma shown_before_antisym a b :
  shown_before a b → shown_before b a → sort_key a = sort_key b.
Proof.
  unfold shown_before, sort_key.
  intros [[? ?]|(Hc & ta & tb & Ha & Hb & ?)] [[? ?]|(Hc' & tb' & ta' & Hb' & Ha' & ?)];
    try congruence.
  rewrite Hc, Ha, Hb. rewrite Ha in Ha'. rewrite Hb in Hb'.
  injection Ha' as <-. injection Hb' as <-. do 2 f_equal. lia.
Qed.

(** A list that keeps the stored order within every key and is in the
    shown order is determined. *)
Lemma stable_sorted_unique l1 l2 :
  (∀ k, filter (λ todo, sort_key todo = k) l1 = filter (λ todo, sort_key todo = k) l2) →
  StronglySorted shown_before l1 → StronglySorted shown_before l2 → l1 = l2.
Proof.
  intros Hf Hs1. revert l2 Hf. induction Hs1 as [|a l1 Hs1 IH Ha]; intros l2 Hf Hs2.
  - destruct l2 as [|b l2]; [done|]. specialize (Hf (sort_key b)).
    rewrite filter_cons_True in Hf by done. done.
  - destruct Hs2 as [|b l2 Hs2 Hb].
    { specialize (Hf (sort_key a)). rewrite filter_cons_True in Hf by done. done. }
    assert (Hk : sort_key a = sort_key b).
    { destruct (decide (sort_key a = sort_key b)) as [|Hne]; [done|].
      apply shown_before_antisym.
      - pose proof (Hf (sort_key b)) as Hfb.
        rewrite filter_cons_False, (filter_cons_True _ b) in Hfb by done.
        rewrite Forall_forall in Ha. apply Ha.
        apply (list_elem_of_filter (λ todo, sort_key todo = sort_key b)).
        rewrite Hfb. left.
      - pose proof (Hf (sort_key a)) as Hfa.
        rewrite filter_cons_True, (filter_cons_False _ b) in Hfa by done.
        rewrite Forall_forall in Hb. apply Hb.
        apply (list_elem_of_filter (λ todo, sort_key todo = sort_key a)).
        rewrite <- Hfa. left. }
    assert (a = b) as <-.
    { specialize (Hf (sort_key a)).
      rewrite !filter_cons_True in Hf by done. by injection Hf. }
    f_equal. apply IH; [|done]. intros k. specialize (Hf k).
    rewrite !filter_cons in Hf. destruct (decide (sort_key a = k)); [by injection Hf|done].
Qed.

Section Engine.
Context {S : SortBuiltin} {L : SortBuiltinLaws}.

Lemma sortedTodos_eq h todos l :
  h !! todos = Some l →
  sortedTodos h todos
  = Some (<[fresh (dom h) := presentationOrder l]> h, fresh (dom h)).
Proof.
  intros Hl. unfold sortedTodos, spread, sort_in_place. rewrite Hl. simpl.
  rewrite lookup_insert_eq. simpl. by rewrite insert_insert_eq.
Qed.

Lemma fresh_not_allocated h todos l : h !! todos = Some l → fresh (dom h) ≠ todos.
Proof.
  intros Hl Heq. apply (is_fresh (dom h)). rewrite Heq. apply elem_of_dom. eauto.
Qed.

Lemma presentationOrder_perm l : Forall has_date l → presentationOrder l ≡ₚ l.
Proof. intros Hd. by apply Array_sort_perm, compare_consistent. Qed.

Lemma presentationOrder_dated l : Forall has_date l → Forall has_date (presentationOrder l).
Proof. intros Hd. by rewrite presentationOrder_perm. Qed.

Lemma presentationOrder_shown_before l :
  Forall has_date l → StronglySorted shown_before (presentationOrder l).
Proof.
  intros Hd. pose proof (presentationOrder_dated l Hd) as Hr.
  rewrite Forall_forall in Hr.
  apply StronglySorted_of_lookup. intros i j a b Hij Hi Hj.
  assert (Ha : a ∈ presentationOrder l) by by eapply list_elem_of_lookup_2.
  assert (Hb : b ∈ presentationOrder l) by by eapply list_elem_of_lookup_2.
  apply compare_shown_before; [by apply Hr..|].
  rewrite presentationOrder_perm in Ha, Hb by done.
  apply (consistent_flip compare l); [by apply compare_consistent|done..|].
  by apply (Array_sort_sorted _ compare l (compare_consistent l Hd) i j).
Qed.

Lemma presentationOrder_stable l k :
  Forall has_date l →
  filter (λ todo, sort_key todo = k) (presentationOrder l)
  = filter (λ todo, sort_key todo = k) l.
Proof.
  intros Hd. pose proof (presentationOrder_dated l Hd) as Hr.
  destruct (filter (λ todo, sort_key todo = k) l) as [|x l'] eqn:Hf.
  - apply Permutation_nil_r. by rewrite presentationOrder_perm, Hf.
  - assert (Hx : sort_key x = k ∧ x ∈ l).
    { apply (list_elem_of_filter (λ todo, sort_key todo = k)). rewrite Hf. left. }
    destruct Hx as [<- Hx]. rewrite <- Hf.
    rewrite Forall_forall in Hd, Hr.
    rewrite (filter_ext_elem _ (λ y, SortCompare compare x y = 0) (presentationOrder l)),
            (filter_ext_elem _ (λ y, SortCompare compare x y = 0) l).
    + apply (Array_sort_stable _ compare l); [|done].
      apply compare_consistent. by apply Forall_forall.
    + intros y Hy. rewrite compare_same_key by auto. split; congruence.
    + intros y Hy. rewrite compare_same_key by auto. split; congruence.
Qed.

Lemma presentationOrder_idemp l :
  Forall has_date l → presentationOrder (presentationOrder l) = presentationOrder l.
Proof.
  intros Hd. pose proof (presentationOrder_dated l Hd) as Hr.
  apply stable_sorted_unique.
  - intros k. by apply presentationOrder_stable.
  - by apply presentationOrder_shown_before.
  - by apply presentationOrder_shown_before.
Qed.

(** C8, amended.  [sortedTodos] sorts a fresh copy: the array it is given
    and every other array stay as they were, and asking again gives the
    same view.  When every item has a valid creation date the comparator
    is consistent, and the view is the one ECMAScript fixes: it holds the
    same items, active ones before completed ones, items of one status
    latest first, items the comparator does not tell apart (same status,
    same creation time) in their stored order, and the view of the view is
    the view.  With an invalid date the comparator returns NaN, and the
    order is the engine's. *)
Theorem sortedTodos_presentation h todos l :
  h !! todos = Some l →
  ∃ h' view,
    sortedTodos h todos = Some (h', view)
    ∧ view ≠ todos
    ∧ h' !! view = Some (presentationOrder l)
    ∧ (∀ p, p ≠ view → h' !! p = h !! p)
    ∧ (∃ h'' view', sortedTodos h' todos = Some (h'', view')
         ∧ h'' !! view' = Some (presentationOrder l)
         ∧ h'' !! view = Some (presentationOrder l)
         ∧ h'' !! todos = Some l)
    ∧ (Forall has_date l →
         consistent compare l
         ∧ presentationOrder l ≡ₚ l
         ∧ (∀ i j a b, (i < j)%nat →
              presentationOrder l !! i = Some a → presentationOrder l !! j = Some b →
              ¬ (completed a = true ∧ completed b = false))
         ∧ (∀ k, filter (λ todo, sort_key todo = k) (presentationOrder l)
                 = filter (λ todo, sort_key todo = k) l)
         ∧ newest_first l
         ∧ StronglySorted shown_before (presentationOrder l)
         ∧ presentationOrder (presentationOrder l) = presentationOrder l).
Proof.
  intros Hl. pose proof (fresh_not_allocated _ _ _ Hl) as Hfresh.
  eexists _, _. split; [by apply sortedTodos_eq|].
  split; [done|]. split; [by rewrite lookup_insert_eq|].
  split; [by intros p Hp; rewrite lookup_insert_ne|].
  split.
  { assert (Hl' : <[fresh (dom h) := presentationOrder l]> h !! todos = Some l)
      by by rewrite lookup_insert_ne.
    pose proof (fresh_not_allocated _ _ _ Hl') as Hfresh'.
    eexists _, _. split; [by apply sortedTodos_eq|].
    split; [by rewrite lookup_insert_eq|]. split.
    - rewrite lookup_insert_ne, lookup_insert_eq; [done|].
      eapply fresh_not_allocated. apply lookup_insert_eq.
    - by rewrite lookup_insert_ne. }
  intros Hd. pose proof (presentationOrder_shown_before l Hd) as Hs.
  split; [by apply compare_consistent|].
  split; [by apply presentationOrder_perm|].
  split.
  { intros i j a b Hij Hi Hj [Ha Hb].
    destruct (StronglySorted_lookup _ _ _ _ _ _ Hs Hij Hi Hj)
      as [[? ?]|(? & _)]; congruence. }
  split; [by intros k; apply presentationOrder_stable|].
  split; [|split; [done|by apply presentationOrder_idemp]].
  intros i j a b ta tb Hij Hi Hj Hc Ha Hb.
  destruct (StronglySorted_lookup _ _ _ _ _ _ Hs Hij Hi Hj)
    as [[? ?]|(_ & ? & ? & ? & ? & ?)]; [congruence|].
  simplify_eq. lia.
Qed.

End Engine.

(** The view does not depend on how the engine sorts, when every item has
    a valid creation date: it is the one sorting by insertion gives. *)
Lemma presentationOrder_unique {S : SortBuiltin} {L : SortBuiltinLaws} l :
  Forall has_date l → presentationOrder l = insertion_sort compare l.
Proof.
  intros Hd. apply stable_sorted_unique.
  - intros k. rewrite presentationOrder_stable by done. symmetry.
    apply (presentationOrder_stable (S := by_insertion) (L := by_insertion_laws) l k Hd).
  - by apply presentationOrder_shown_before.
  - apply (presentationOrder_shown_before (S := by_insertion) (L := by_insertion_laws) l Hd).
Qed.

Lemma sortedTodos_presentation_witness :
  ({[ 1%positive := [Samples.milk; Samples.eggs; Samples.milk_again] ]} : heap) !! 1%positive
  = Some [Samples.milk; Samples.eggs; Samples.milk_again]
  ∧ ∃ h' view,
      sortedTodos (S := by_insertion)
        {[ 1%positive := [Samples.milk; Samples.eggs; Samples.milk_again] ]} 1
      = Some (h', view)
      ∧ h' !! view = Some [Samples.milk_again; Samples.milk; Samples.eggs]
      ∧ h' !! 1%positive = Some [Samples.milk; Samples.eggs; Samples.milk_again].
Proof.
  assert (Hl : ({[ 1%positive := [Samples.milk; Samples.eggs; Samples.milk_again] ]} : heap)
                 !! 1%positive = Some [Samples.milk; Samples.eggs; Samples.milk_again])
    by reflexivity.
  split; [exact Hl|].
  destruct (sortedTodos_presentation (S := by_insertion) (L := by_insertion_laws)
              {[ 1%positive := [Samples.milk; Samples.eggs; Samples.milk_again] ]} 1
              [Samples.milk; Samples.eggs; Samples.milk_again] Hl)
    as (h' & view & Hrun & Hne & Hview & Hother & _).
  exists h', view. split; [exact Hrun|]. split; [exact Hview|].
  rewrite (Hother 1%positive) by (intros Heq; apply Hne; symmetry; exact Heq).
  exact Hl.
Defined.

(** C8 as worded fails when a creation date is invalid.  The comparator
    then returns NaN, which [sort] reads as "equal": the undated item
    equals both others, which differ, so the comparator is not consistent
    and the order is the engine's.  An engine that sorts by insertion
    finds nothing to move, and the older item stays in front of the newer
    one of the same status. *)
Lemma presentationOrder_invalid_date :
  presentationOrder (S := by_insertion) [Samples.older; Samples.undated; Samples.newer]
  = [Samples.older; Samples.undated; Samples.newer]
  ∧ ¬ consistent compare [Samples.older; Samples.undated; Samples.newer]
  ∧ ¬ newest_first (S := by_insertion) [Samples.older; Samples.undated; Samples.newer].
Proof.
  split; [by vm_compute|]. split.
  - intros (Hnum & _). destruct (Hnum Samples.older Samples.undated) as [v Hv].
    + left.
    + right. left.
    + discriminate.
  - intros Hn.
    specialize (Hn 0%nat 2%nat Samples.older Samples.newer 1000 2000).
    assert (2000 ≤ 1000); [|lia].
    apply Hn; first [lia | by vm_compute].
Qed.

End PresentationOrder.

(** * Further properties *)

(** ** Sessions *)

Section Sessions.
Import TodoService Hooks.
Context {B : DateBuiltins}.
Implicit Types (s : State) (a : Intent) (todo : Todo) (w : Window) (st : Storage).

(** *** What a commit does to the store *)

Lemma commit_reliable updated s :
  reliable (window s) →
  reliable (window (commit updated s))
  ∧ slot (window (commit updated s)) = Some (JSON_stringify (todos_toJSON updated))
  ∧ todos (commit updated s) = updated
  ∧ error (commit updated s) = None
  ∧ storageError (commit updated s) = None.
Proof.
  intros (st & Hst & Hok).
  unfold commit, setTodos, setValue, saveTodos, setItem. simpl.
  rewrite Hst, (Hok SetItem). simpl. rewrite (Hok SetItem). simpl.
  split; [eexists; split; [done|]; done|].
  split; [|done]. unfold slot. simpl. by rewrite lookup_insert_eq.
Qed.

Lemma clearAllTodos_reliable s :
  reliable (window s) →
  reliable (window (clearAllTodos s))
  ∧ slot (window (clearAllTodos s)) = None
  ∧ todos (clearAllTodos s) = []
  ∧ error (clearAllTodos s) = None.
Proof.
  intros (st & Hst & Hok).
  unfold clearAllTodos, setTodos, setValue, clearTodos, setItem, removeItem. simpl.
  rewrite Hst, (Hok SetItem). simpl. rewrite (Hok RemoveItem). simpl.
  split; [eexists; split; [done|]; done|].
  split; [|done]. unfold slot. simpl. by rewrite lookup_delete_eq.
Qed.

Lemma dispatch_mirrored s a :
  reliable (window s) → mirrored s →
  reliable (window (dispatch s a)) ∧ mirrored (dispatch s a).
Proof.
  intros Hr Hm.
  assert (Hc : ∀ updated, reliable (window (commit updated s)) ∧ mirrored (commit updated s)).
  { intros updated. destruct (commit_reliable updated s Hr) as (? & Hslot & Ht & _).
    split; [done|]. left. by rewrite Hslot, Ht. }
  destruct a as [uuid now input|i u|i|i| |]; simpl; try apply Hc.
  - unfold addTodo. destruct (isValid _); simpl; [apply Hc|done].
  - unfold updateTodo. destruct (upd_title u); [|apply Hc].
    destruct (isValid _); simpl; [apply Hc|done].
  - destruct (clearAllTodos_reliable s Hr) as (? & Hslot & Ht & _).
    split; [done|]. by right.
Qed.

Lemma run_mirrored s intents :
  reliable (window s) → mirrored s →
  reliable (window (run s intents)) ∧ mirrored (run s intents).
Proof.
  revert s. induction intents as [|a intents IH]; intros s Hr Hm; [done|].
  simpl. destruct (dispatch_mirrored s a Hr Hm). by apply IH.
Qed.

(** *** What a session does to identity *)

Lemma todos_dispatch s a :
  todos (dispatch s a)
  = match a with
    | Add uuid now input =>
        if isValid (validateTodoTitle (input_title input))
        then todos s ++ [createTodo uuid now input] else todos s
    | Update i u =>
        match upd_title u with
        | Some t => if isValid (validateTodoTitle t)
                    then TodoService.updateTodo (todos s) i u else todos s
        | None => TodoService.updateTodo (todos s) i u
        end
    | Delete i => TodoService.deleteTodo (todos s) i
    | Toggle i => TodoService.toggleComplete (todos s) i
    | ClearAll => []
    | ClearCompleted => filter (λ todo, completed todo = false) (todos s)
    end.
Proof.
  destruct a as [uuid now input|i u|i|i| |]; simpl.
  - unfold addTodo. destruct (isValid _); simpl; [apply todos_commit|done].
  - unfold updateTodo. destruct (upd_title u); [|apply todos_commit].
    destruct (isValid _); simpl; [apply todos_commit|done].
  - apply todos_commit.
  - apply todos_commit.
  - apply todos_clearAllTodos.
  - apply todos_commit.
Qed.

End Sessions.

Section SessionIdentity.
Import TodoService Hooks.
Context {B : DateBuiltins}.
Implicit Types (s : State) (a : Intent) (todo : Todo) (w : Window) (st : Storage).

Lemma ids_conditional (f : Todo → Todo) (l : list Todo) i :
  (∀ todo, id (f todo) = id todo) →
  id <$> ((λ todo, if decide (id todo = i) then f todo else todo) <$> l) = id <$> l.
Proof.
  intros Hf. rewrite <- list_fmap_compose. apply list_fmap_ext.
  intros _ todo _. simpl. by case_decide.
Qed.

Lemma dispatch_identity s a todo' :
  todo' ∈ todos (dispatch s a) →
  (∃ todo, todo ∈ todos s ∧ id todo' = id todo ∧ createdAt todo' = createdAt todo)
  ∨ (∃ uuid now input, a = Add uuid now input ∧ id todo' = uuid
       ∧ createdAt todo' = Some now).
Proof.
  rewrite todos_dispatch.
  assert (Hsame : todo' ∈ todos s →
    (∃ todo, todo ∈ todos s ∧ id todo' = id todo ∧ createdAt todo' = createdAt todo)
    ∨ (∃ uuid now input, a = Add uuid now input ∧ id todo' = uuid
         ∧ createdAt todo' = Some now)) by (left; eauto).
  assert (Hmap : ∀ f : Todo → Todo,
    (∀ todo, id (f todo) = id todo ∧ createdAt (f todo) = createdAt todo) →
    todo' ∈ f <$> todos s →
    ∃ todo, todo ∈ todos s ∧ id todo' = id todo ∧ createdAt todo' = createdAt todo).
  { intros f Hf (todo & -> & Hin)%list_elem_of_fmap. exists todo.
    destruct (Hf todo). eauto. }
  assert (Hupd : ∀ i u, todo' ∈ TodoService.updateTodo (todos s) i u →
    ∃ todo, todo ∈ todos s ∧ id todo' = id todo ∧ createdAt todo' = createdAt todo).
  { intros i u. apply Hmap. intros todo. by case_decide. }
  destruct a as [uuid now input|i u|i|i| |].
  - destruct (isValid _); [|done]. intros [Hin|Hin]%elem_of_app; [by apply Hsame|].
    apply list_elem_of_singleton in Hin as ->. right. by exists uuid, now, input.
  - destruct (upd_title u); [destruct (isValid _)|]; eauto.
  - intros [Hin _]%deleteTodo_spec. by apply Hsame.
  - intros Hin. left. revert Hin. apply Hmap. intros todo. by case_decide.
  - by intros ?%elem_of_nil.
  - intros [_ Hin]%list_elem_of_filter. by apply Hsame.
Qed.

(** No intent changes an item's identifier or creation time: whatever a
    session leaves in the collection was there at the start or was added
    during the session, and still has the identifier and the creation time
    it started with. *)
Theorem session_keeps_identity s intents todo' :
  todo' ∈ todos (run s intents) →
  (∃ todo, todo ∈ todos s ∧ id todo' = id todo ∧ createdAt todo' = createdAt todo)
  ∨ (∃ uuid now input, Add uuid now input ∈ intents ∧ id todo' = uuid
       ∧ createdAt todo' = Some now).
Proof.
  revert s. induction intents as [|a intents IH]; intros s Hin; simpl in Hin.
  { left. eauto. }
  apply IH in Hin as [(todo & Hin & Hi & Hc)|(uuid & now & input & Hin & Hi & Hc)].
  - apply dispatch_identity in Hin
      as [(todo0 & ? & Hi0 & Hc0)|(uuid & now & input & -> & Hi0 & Hc0)].
    + left. exists todo0. split; [done|]. split; congruence.
    + right. exists uuid, now, input. split; [left|]. split; congruence.
  - right. exists uuid, now, input. split; [by right|done].
Qed.

Lemma dispatch_ids s a rest :
  NoDup ((id <$> todos s) ++ drawn_ids (a :: rest)) →
  NoDup ((id <$> todos (dispatch s a)) ++ drawn_ids rest).
Proof.
  rewrite todos_dispatch.
  assert (Hsub : ∀ l : list Todo, sublist l (todos s) →
            NoDup ((id <$> todos s) ++ drawn_ids rest) →
            NoDup ((id <$> l) ++ drawn_ids rest)).
  { intros l Hl Hn. eapply sublist_NoDup; [exact Hn|].
    apply sublist_app; [|done]. by apply fmap_sublist. }
  destruct a as [uuid now input|i u|i|i| |]; cbn [drawn_ids omap list_omap];
    fold (drawn_ids rest); intros Hn.
  - destruct (isValid _).
    + rewrite fmap_app. simpl. by rewrite <- app_assoc.
    + eapply sublist_NoDup; [exact Hn|]. apply sublist_app; [done|]. by constructor.
  - assert (id <$> TodoService.updateTodo (todos s) i u = id <$> todos s) as Hu
      by by apply ids_conditional.
    destruct (upd_title u); [destruct (isValid _)|]; by rewrite ?Hu.
  - apply Hsub; [apply sublist_filter|done].
  - unfold TodoService.toggleComplete. by rewrite ids_conditional.
  - simpl. apply NoDup_app in Hn. tauto.
  - apply Hsub; [apply sublist_filter|done].
Qed.

(** Identifiers stay unique: when the identifiers of the collection and
    those the session draws for its adds are all different, no two items of
    the collection after the session share an identifier. *)
Theorem session_keeps_ids_unique s intents :
  NoDup ((id <$> todos s) ++ drawn_ids intents) →
  NoDup (id <$> todos (run s intents)).
Proof.
  revert s. induction intents as [|a intents IH]; intros s Hn; simpl.
  - by rewrite app_nil_r in Hn.
  - apply IH. by apply dispatch_ids.
Qed.

End SessionIdentity.

Lemma session_keeps_identity_witness :
  mkTodo (lit "1") (lit "Buy oat milk") true (Some 1000)
  ∈ Hooks.todos (Hooks.run (B := Samples.engine) (Hooks.initial NoWindow) Samples.session)
  ∧ ∃ input, Hooks.Add (lit "1") 1000 input ∈ Samples.session.
Proof.
  assert (Hin : mkTodo (lit "1") (lit "Buy oat milk") true (Some 1000)
                ∈ Hooks.todos (Hooks.run (B := Samples.engine) (Hooks.initial NoWindow)
                                 Samples.session)).
  { vm_compute. left. }
  split; [exact Hin|].
  destruct (session_keeps_identity (B := Samples.engine) (Hooks.initial NoWindow)
              Samples.session _ Hin)
    as [(todo & Hnil & _)|(uuid & now & input & Hadd & Hi & Hc)].
  - vm_compute in Hnil. by apply elem_of_nil in Hnil.
  - simpl in Hi, Hc. injection Hc as <-. subst uuid. by exists input.
Defined.

Lemma session_keeps_ids_unique_witness :
  NoDup ((id <$> Hooks.todos (Hooks.initial NoWindow)) ++ drawn_ids Samples.session)
  ∧ NoDup (id <$> Hooks.todos
                    (Hooks.run (B := Samples.engine) (Hooks.initial NoWindow)
                       Samples.session)).
Proof.
  assert (Hn : NoDup ((id <$> Hooks.todos (Hooks.initial NoWindow))
                      ++ drawn_ids Samples.session)).
  { apply (bool_decide_unpack _). vm_compute. exact I. }
  split; [exact Hn|].
  exact (session_keeps_ids_unique (B := Samples.engine) (Hooks.initial NoWindow)
           Samples.session Hn).
Defined.

Section Durability.
Import TodoService Hooks.
Context {B : DateBuiltins}.
Implicit Types (s : State) (a : Intent) (todo : Todo) (w : Window) (st : Storage).

Lemma loadTodos_slot now w :
  (∃ st, localStorage_of w = inr (Some st) ∧ throws st GetItem = None) →
  loadTodos now w
  = match slot w ≫= JSON_parse with
    | Some (JArr parsedTodos) => omap (restore now) parsedTodos
    | _ => []
    end.
Proof.
  intros (st & Hst & Hget). unfold loadTodos, slot, getItem. rewrite Hst, Hget. simpl.
  destruct (items st !! STORAGE_KEY) as [[| |[]]|]; done.
Qed.

Lemma dispatch_well_formed s a :
  Forall well_formed (todos s) → draws_well a →
  Forall well_formed (todos (dispatch s a)).
Proof.
  intros Hs Ha. rewrite todos_dispatch.
  assert (Hupd : ∀ i u, (∀ t, upd_title u = Some t → valid_title t) →
            Forall well_formed (TodoService.updateTodo (todos s) i u)).
  { intros i u Hu. unfold TodoService.updateTodo. apply Forall_fmap.
    eapply Forall_impl; [exact Hs|]. intros todo (Hi & Ht & Hd). simpl.
    case_decide; [|done]. split; [done|]. split; [|done]. unfold merged; simpl.
    destruct (upd_title u) as [t|] eqn:Hut; [|done].
    destruct t; [done|]. by apply valid_title_trim, Hu. }
  destruct a as [uuid now input|i u|i|i| |].
  - destruct (isValid _) eqn:Hv; [|done]. apply Forall_app. split; [done|].
    constructor; [|done]. destruct Ha as [Hid Hnow].
    split; [done|]. split; [|by exists now].
    simpl. by apply valid_title_trim, validateTodoTitle_valid.
  - destruct (upd_title u) as [t|] eqn:Hut.
    + destruct (isValid _) eqn:Hv; [|done]. apply Hupd.
      intros t' Ht'. rewrite Hut in Ht'. injection Ht' as <-.
      by apply validateTodoTitle_valid.
    + apply Hupd. intros t' Ht'. by rewrite Hut in Ht'.
  - by apply Forall_kept.
  - unfold TodoService.toggleComplete. apply Forall_fmap.
    eapply Forall_impl; [exact Hs|]. intros todo Hw. simpl. by case_decide.
  - constructor.
  - by apply Forall_kept.
Qed.

Lemma run_well_formed s intents :
  Forall well_formed (todos s) → Forall draws_well intents →
  Forall well_formed (todos (run s intents)).
Proof.
  revert s. induction intents as [|a intents IH]; intros s Hs Hi; [done|].
  apply Forall_cons in Hi as [Ha Hi]. simpl. apply IH; [|done].
  by apply dispatch_well_formed.
Qed.

(** What is in memory is what a reload gets.  On a store none of whose
    methods throws, from a state whose slot mirrors its well-formed
    collection (a fresh session on an empty store is one), after any
    session whose adds draw a non-empty identifier and a valid time the
    slot again holds the collection in memory, and [loadTodos] returns it
    item for item. *)
Theorem session_is_durable {L : DateBuiltinsLaws} s intents now :
  reliable (window s) → mirrored s →
  Forall well_formed (todos s) → Forall draws_well intents →
  mirrored (run s intents)
  ∧ loadTodos now (window (run s intents)) = as_loaded <$> todos (run s intents).
Proof.
  intros Hr Hm Hw Hi.
  destruct (run_mirrored s intents Hr Hm) as [(st & Hst & Hok) Hm'].
  split; [done|].
  rewrite loadTodos_slot by eauto.
  destruct Hm' as [->|[-> ->]]; [|done]. simpl.
  apply omap_restore_toJSON. by apply run_well_formed.
Qed.

(** [clearAllTodos] always empties the collection in memory.  With a store
    that works the slot is removed and no error is reported; with no store
    the only report is that nothing is persisted; when the removal throws
    the hook reports that clearing failed, and the slot then holds the
    empty array that [setTodos] had just written. *)
Theorem clearAllTodos_contract s :
  todos (clearAllTodos s) = []
  ∧ (localStorage_of (window s) = inr None →
       window (clearAllTodos s) = window s
       ∧ error (clearAllTodos s) = None
       ∧ combinedError (clearAllTodos s) = Some msg_not_persisted)
  ∧ (reliable (window s) →
       slot (window (clearAllTodos s)) = None
       ∧ combinedError (clearAllTodos s) = None)
  ∧ (∀ st e, localStorage_of (window s) = inr (Some st) → throws st RemoveItem = Some e →
       error (clearAllTodos s) = Some msg_clear_failed
       ∧ combinedError (clearAllTodos s) = Some msg_clear_failed
       ∧ (throws st SetItem = None →
            slot (window (clearAllTodos s)) = Some (JSON_stringify (JArr []))))
  ∧ msg_clear_failed ≠ msg_save_failed.
Proof.
  split; [apply todos_clearAllTodos|].
  split; [|split; [|split; [|done]]].
  - intros Hw. unfold clearAllTodos, setTodos, setValue, clearTodos. simpl.
    rewrite Hw. simpl. by rewrite Hw.
  - intros Hr. destruct (clearAllTodos_reliable s Hr) as (_ & Hslot & _ & He).
    split; [done|]. unfold combinedError. rewrite He.
    destruct Hr as (st & Hst & Hok).
    unfold clearAllTodos, setTodos, setValue, clearTodos, setItem, removeItem. simpl.
    rewrite Hst, (Hok SetItem). simpl. by rewrite (Hok RemoveItem).
  - intros st e Hst Hrm.
    unfold clearAllTodos, setTodos, setValue, clearTodos, setItem, removeItem. simpl.
    rewrite Hst. destruct (throws st SetItem) as [e'|] eqn:Hset; simpl.
    + rewrite Hst. simpl. rewrite Hrm. simpl. done.
    + rewrite Hrm. simpl. split; [done|]. split; [done|]. intros _.
      unfold slot. simpl. by rewrite lookup_insert_eq.
Qed.

(** The last write wins, and saving touches nothing but its own slot:
    saving one collection and then another leaves the store exactly as
    saving the second alone does. *)
Theorem saveTodos_last_write_wins st (first second : list Todo) :
  throws st SetItem = None →
  ∃ st', match saveTodos (WindowOf (Some st)) first with
         | inr w => saveTodos w second
         | inl e => inl e
         end = inr (WindowOf (Some st'))
    ∧ saveTodos (WindowOf (Some st)) second = inr (WindowOf (Some st'))
    ∧ items st' !! STORAGE_KEY = Some (JSON_stringify (todos_toJSON second))
    ∧ (∀ k, k ≠ STORAGE_KEY → items st' !! k = items st !! k)
    ∧ throws st' = throws st.
Proof.
  intros Hset. unfold saveTodos, setItem. simpl. rewrite Hset. simpl. rewrite Hset.
  eexists. split; [by rewrite insert_insert_eq|]. split; [done|]. simpl.
  split; [by rewrite lookup_insert_eq|]. split; [|done].
  intros k Hk. by rewrite lookup_insert_ne.
Qed.

(** Whatever the store holds, every record [loadTodos] returns comes from
    an element of the stored array that has a truthy [id], a truthy [title]
    and a boolean [completed], and there are no more records than the
    array has elements. *)
Theorem loadTodos_output_shape now w :
  (∀ r, r ∈ loadTodos now w →
     ToBoolean (loaded_id r) = true ∧ ToBoolean (loaded_title r) = true
     ∧ loaded_id r ≠ JStr [] ∧ loaded_title r ≠ JStr []
     ∧ ∃ parsedTodos v,
         slot w ≫= JSON_parse = Some (JArr parsedTodos) ∧ v ∈ parsedTodos
         ∧ restore now v = Some r)
  ∧ (∀ parsedTodos, slot w ≫= JSON_parse = Some (JArr parsedTodos) →
       (length (loadTodos now w) ≤ length parsedTodos)%nat).
Proof.
  assert (Hload : loadTodos now w = []
                  ∨ ∃ l, slot w ≫= JSON_parse = Some (JArr l)
                         ∧ loadTodos now w = omap (restore now) l).
  { unfold loadTodos, slot, getItem.
    destruct (localStorage_of w) as [e|[st|]]; [by left| |by left]. simpl.
    destruct (throws st GetItem); [by left|].
    destruct (items st !! STORAGE_KEY) as [[| |[]]|]; simpl; eauto. }
  split.
  - intros r Hr. destruct Hload as [Hnil|(l & Hl & Hload)].
    { rewrite Hnil in Hr. by apply elem_of_nil in Hr. }
    rewrite Hload in Hr. apply list_elem_of_omap in Hr as (v & Hv & Hres).
    destruct (restore_Some _ _ _ Hres) as (_ & Hi & _ & Ht & _).
    split; [done|]. split; [done|].
    split; [by intros Heq; rewrite Heq in Hi|].
    split; [by intros Heq; rewrite Heq in Ht|]. eauto.
  - intros l Hl. destruct Hload as [->|(l' & Hl' & ->)]; [simpl; lia|].
    rewrite Hl in Hl'. injection Hl' as <-.
    clear. induction l as [|v l IH]; [done|]. cbn [omap list_omap].
    fold (omap (restore now) l). destruct (restore now v); cbn [length]; lia.
Qed.

End Durability.

Lemma session_is_durable_witness :
  reliable (WindowOf (Some (mkStorage ∅ (λ _, None))))
  ∧ TodoService.loadTodos (B := Samples.engine) 9000
      (Hooks.window
         (Hooks.run (B := Samples.engine)
            (Hooks.initial (WindowOf (Some (mkStorage ∅ (λ _, None)))))
            Samples.session))
    = [ TodoService.as_loaded (mkTodo (lit "1") (lit "Buy oat milk") true (Some 1000)) ].
Proof.
  assert (Hr : reliable (WindowOf (Some (mkStorage ∅ (λ _, None))))).
  { eexists. split; [reflexivity|]. done. }
  assert (Hm : mirrored (B := Samples.engine)
                 (Hooks.initial (WindowOf (Some (mkStorage ∅ (λ _, None)))))).
  { right. split; reflexivity. }
  assert (Hd : Forall draws_well Samples.session).
  { repeat apply Forall_cons_2; try exact I; try apply Forall_nil_2;
      (split; [discriminate|unfold valid_time; lia]). }
  split; [exact Hr|].
  destruct (session_is_durable (B := Samples.engine) (L := Iso8601_laws _ _)
              (Hooks.initial (WindowOf (Some (mkStorage ∅ (λ _, None)))))
              Samples.session 9000 Hr Hm (Forall_nil_2 _) Hd) as [_ Hload].
  etrans; [exact Hload|]. by vm_compute.
Defined.

Lemma saveTodos_last_write_wins_witness :
  throws (mkStorage ∅ (λ _, None)) SetItem = None
  ∧ ∃ st', TodoService.saveTodos (B := Samples.engine)
             (WindowOf (Some (mkStorage ∅ (λ _, None)))) [Samples.eggs]
           = inr (WindowOf (Some st'))
      ∧ items st' !! TodoService.STORAGE_KEY
        = Some (JSON_stringify (TodoService.todos_toJSON (B := Samples.engine) [Samples.eggs])).
Proof.
  split; [reflexivity|].
  destruct (saveTodos_last_write_wins (B := Samples.engine) (mkStorage ∅ (λ _, None))
              [Samples.milk] [Samples.eggs] eq_refl) as (st' & _ & Hsave & Hslot & _).
  exists st'. split; [exact Hsave|exact Hslot].
Defined.

Section HookLaws.
Import TodoService Hooks.
Context {B : DateBuiltins}.
Implicit Types (s : State) (a : Intent) (todo : Todo) (w : Window) (st : Storage).

Lemma length_filter_split (l : list Todo) :
  (length (filter (λ todo, completed todo = true) l)
   + length (filter (λ todo, completed todo = false) l) = length l)%nat.
Proof.
  induction l as [|todo l IH]; [done|]. rewrite !filter_cons.
  destruct (completed todo); repeat case_decide; try done; simpl; lia.
Qed.

Lemma filter_active_active (l : list Todo) :
  filter (λ todo, completed todo = false) (filter (λ todo, completed todo = false) l)
  = filter (λ todo, completed todo = false) l.
Proof.
  induction l as [|todo l IH]; [done|]. rewrite filter_cons.
  case_decide; [|done]. rewrite filter_cons_True by done. by rewrite IH.
Qed.

Lemma filter_done_active (l : list Todo) :
  filter (λ todo, completed todo = true) (filter (λ todo, completed todo = false) l) = [].
Proof.
  induction l as [|todo l IH]; [done|]. rewrite filter_cons.
  case_decide as Hc; [|done]. rewrite filter_cons_False by congruence. done.
Qed.

(** Clearing the completed items keeps exactly the active ones, in their
    order: afterwards nothing is counted as completed, the active count is
    what it was and is the total, and clearing again changes nothing. *)
Theorem clearCompletedTodos_counts s :
  (∀ todo, todo ∈ todos (clearCompletedTodos s) ↔ todo ∈ todos s ∧ completed todo = false)
  ∧ sublist (todos (clearCompletedTodos s)) (todos s)
  ∧ done_count (stats (clearCompletedTodos s)) = 0%nat
  ∧ active_count (stats (clearCompletedTodos s)) = active_count (stats s)
  ∧ total (stats (clearCompletedTodos s)) = active_count (stats s)
  ∧ (total (stats s) = total (stats (clearCompletedTodos s)) + done_count (stats s))%nat
  ∧ todos (clearCompletedTodos (clearCompletedTodos s)) = todos (clearCompletedTodos s).
Proof.
  assert (Ht : todos (clearCompletedTodos s)
               = filter (λ todo, completed todo = false) (todos s))
    by apply todos_commit.
  pose proof (filter_active_active (todos s)) as Hact.
  pose proof (filter_done_active (todos s)) as Hdone.
  split; [|split; [|split; [|split; [|split; [|split]]]]].
  - intros todo. rewrite Ht, list_elem_of_filter. tauto.
  - rewrite Ht. apply sublist_filter.
  - unfold stats; simpl. by rewrite Ht, Hdone.
  - unfold stats; simpl. by rewrite Ht, Hact.
  - unfold stats; simpl. by rewrite Ht.
  - unfold stats; simpl. rewrite Ht. pose proof (length_filter_split (todos s)). lia.
  - unfold clearCompletedTodos at 1. rewrite todos_commit. by rewrite Ht, Hact.
Qed.

(** Through the hook, toggling an item twice gives back the collection, and
    so does adding an item under an identifier the collection does not
    hold and deleting that identifier; on a store none of whose methods
    throws the slot then holds that collection again. *)
Theorem hook_undo s i uuid now input :
  todos (toggleComplete i (toggleComplete i s)) = todos s
  ∧ (valid_title (input_title input) → uuid ∉ id <$> todos s →
       todos (deleteTodo uuid (addTodo uuid now input s)) = todos s)
  ∧ (reliable (window s) →
       slot (window (toggleComplete i (toggleComplete i s)))
       = Some (JSON_stringify (todos_toJSON (todos s)))
       ∧ slot (window (deleteTodo uuid (addTodo uuid now input s)))
         = Some (JSON_stringify
                   (todos_toJSON (todos (deleteTodo uuid (addTodo uuid now input s))))))
  .
Proof.
  assert (Htog : todos (toggleComplete i (toggleComplete i s)) = todos s).
  { unfold toggleComplete. rewrite !todos_commit.
    unfold TodoService.toggleComplete. rewrite <- list_fmap_compose.
    rewrite <- (list_fmap_id (todos s)) at 2. apply list_fmap_ext.
    intros _ todo _. simpl. destruct (decide (id todo = i)) as [Hi|Hi].
    - rewrite id_toggled, decide_True by done. apply toggled_toggled.
    - by rewrite decide_False. }
  split; [done|]. split.
  - intros Hv Hfresh. unfold deleteTodo. rewrite todos_commit.
    unfold addTodo. apply validateTodoTitle_valid in Hv as ->. simpl.
    rewrite todos_commit. unfold TodoService.deleteTodo.
    rewrite filter_app, filter_cons_False, filter_nil, app_nil_r by (simpl; tauto).
    apply deleteTodo_absent. intros todo Hin <-. apply Hfresh.
    apply list_elem_of_fmap. eauto.
  - intros Hr. split.
    + unfold toggleComplete at 1.
      destruct (commit_reliable (TodoService.toggleComplete (todos s) i) s Hr) as (Hr' & _).
      destruct (commit_reliable
                  (TodoService.toggleComplete (todos (toggleComplete i s)) i)
                  (toggleComplete i s) Hr') as (_ & Hslot & Ht & _).
      rewrite Hslot. unfold toggleComplete in Htog at 1.
      rewrite todos_commit in Htog. by rewrite Htog.
    + assert (Hr' : reliable (window (addTodo uuid now input s))).
      { unfold addTodo. destruct (isValid _); simpl; [|done].
        by apply commit_reliable. }
      unfold deleteTodo at 1 2.
      destruct (commit_reliable
                  (TodoService.deleteTodo (todos (addTodo uuid now input s)) uuid)
                  (addTodo uuid now input s) Hr') as (_ & Hslot & Ht & _).
      by rewrite Hslot, Ht.
Qed.

(** Updating validates a provided title first.  A title that is not 1 to
    500 characters once trimmed leaves the collection and the store as
    they were and reports why; otherwise each item with the identifier
    gets the merge, and the others stay as they are. *)
Theorem updateTodo_validated i u s :
  (∀ t, upd_title u = Some t → ¬ valid_title t →
     todos (updateTodo i u s) = todos s
     ∧ window (updateTodo i u s) = window s
     ∧ ∃ msg, error (updateTodo i u s) = Some msg
         ∧ (msg = msg_required ∨ msg = msg_empty ∨ msg = msg_too_long)
         ∧ ((500 < length (trim t))%nat ↔ msg = msg_too_long))
  ∧ ((∀ t, upd_title u = Some t → valid_title t) →
       todos (updateTodo i u s) = TodoService.updateTodo (todos s) i u
       ∧ ∀ k todo, todos s !! k = Some todo →
           todos (updateTodo i u s) !! k
           = Some (if decide (id todo = i) then merged todo u else todo)).
Proof.
  split.
  - intros t Hu Hv. unfold updateTodo. rewrite Hu.
    destruct (isValid _) eqn:Hi; [by apply validateTodoTitle_valid in Hi|].
    simpl. do 2 (split; [done|]). clear Hi. revert Hv.
    unfold validateTodoTitle, valid_title.
    destruct t as [|c t]; cbn [truthy_string negb].
    + intros _. eexists; split; [done|]. split; [by left|].
      rewrite trim_nil. simpl. split; [lia|discriminate].
    + repeat case_decide; cbn [TodoService.error default]; intros Hv;
        first [ exfalso; lia
              | eexists; split; [done|]; split; [auto|];
                split; first [lia | discriminate | done] ].
  - intros Hv.
    assert (Ht : todos (updateTodo i u s) = TodoService.updateTodo (todos s) i u).
    { unfold updateTodo. destruct (upd_title u) as [t|] eqn:Hu; [|apply todos_commit].
      specialize (Hv t eq_refl). apply validateTodoTitle_valid in Hv as ->.
      simpl. apply todos_commit. }
    split; [done|]. intros k todo Hk. by rewrite Ht, updateTodo_lookup, Hk.
Qed.

End HookLaws.

(** ** The initial read of [useLocalStorage] *)

Section InitialReadProps.
Import TodoService Hooks InitialRead.
Context {B : DateBuiltins}.
Implicit Types (s : State) (w : Window) (st : Storage) (todo : Todo).

Lemma redate_Todo_toJSON {L : DateBuiltinsLaws} todo :
  (∀ t, createdAt todo = Some t → valid_time t) →
  redate (Todo_toJSON todo) = reread todo.
Proof.
  intros Hd. destruct (get_Todo_toJSON todo) as (_ & _ & _ & Hg).
  unfold redate.
  assert (has (Todo_toJSON todo) (lit "createdAt") = true) as ->
    by (apply has_get; rewrite Hg; eauto).
  rewrite Hg. unfold reread. simpl. f_equal.
  destruct (createdAt todo) as [t|]; [|done]. simpl.
  by apply Date_parse_toISOString, Hd.
Qed.

(** What [setValue] writes, the initializer reads back in full: on a store
    that accepts the write and the read, every item of the collection
    comes back, in order, with the fields it was written with; no item is
    validated or dropped, whatever its id or title.  An item whose date is
    invalid is written with [null] for a date and comes back dated at the
    epoch. *)
Theorem initializer_rereads_setValue {L : DateBuiltinsLaws} s st (value : list Todo) :
  localStorage_of (window s) = inr (Some st) →
  throws st SetItem = None → throws st GetItem = None →
  Forall (λ todo, ∀ t, createdAt todo = Some t → valid_time t) value →
  initializer (window (setValue (inl value) s)) "todos" = Elements (reread <$> value)
  ∧ ∀ k todo, value !! k = Some todo → createdAt todo = None →
      (reread <$> value) !! k
      = Some (Redated [ (lit "id", JStr (id todo)); (lit "title", JStr (title todo));
                        (lit "completed", JBool (completed todo));
                        (lit "createdAt", JNull) ] (Some 0)).
Proof.
  intros Hst Hset Hget Hd. split.
  - unfold setValue, setItem. rewrite Hst, Hset. simpl.
    unfold initializer, getItem. simpl. rewrite Hget, lookup_insert_eq. simpl.
    f_equal. rewrite <- list_fmap_compose. apply list_fmap_ext.
    intros k todo Hk. simpl. apply redate_Todo_toJSON.
    rewrite Forall_forall in Hd. apply Hd. by eapply list_elem_of_lookup_2.
  - intros k todo Hk Hnone. rewrite list_lookup_fmap, Hk. simpl.
    unfold reread. by rewrite Hnone.
Qed.


End InitialReadProps.

Lemma initializer_rereads_setValue_witness :
  Forall (λ todo, ∀ t, createdAt todo = Some t → valid_time t)
    [Samples.milk; Samples.undated]
  ∧ InitialRead.initializer (B := Samples.engine)
      (Hooks.window (Hooks.setValue (B := Samples.engine)
                       (inl [Samples.milk; Samples.undated])
                       (Hooks.initial (WindowOf (Some (mkStorage ∅ (λ _, None)))))))
      "todos"
    = InitialRead.Elements
        [ InitialRead.reread (B := Samples.engine) Samples.milk;
          InitialRead.reread (B := Samples.engine) Samples.undated ].
Proof.
  assert (Hd : Forall (λ todo, ∀ t, createdAt todo = Some t → valid_time t)
                 [Samples.milk; Samples.undated]).
  { repeat apply Forall_cons_2; try apply Forall_nil_2; intros t [= <-].
    unfold valid_time. lia. }
  split; [exact Hd|].
  destruct (initializer_rereads_setValue (B := Samples.engine) (L := Iso8601_laws _ _)
              (Hooks.initial (WindowOf (Some (mkStorage ∅ (λ _, None)))))
              (mkStorage ∅ (λ _, None)) [Samples.milk; Samples.undated]
              eq_refl eq_refl eq_refl Hd) as [Hread _].
  exact Hread.
Defined.

(** ** The form and the item *)

Section ComponentProps.
Import TodoService Hooks.
Context {B : DateBuiltins}.
Implicit Types (s : State) (todo : Todo).

Lemma valid_title_iff t :
  valid_title t
  ↔ truthy_string (trim t) = true ∧ ¬ (500 < length (trim t))%nat.
Proof.
  unfold valid_title. destruct (trim t) as [|c l]; simpl.
  - split; [lia|]. by intros [? _].
  - split; [|lia]. intros ?. split; [done|lia].
Qed.

(** The form checks what the hook checks.  A typed title of 1 to 500
    characters once trimmed is handed to [addTodo], which accepts it: one
    active item with the trimmed title is appended and the form is cleared.
    Any other text never reaches the hook: its state stays as it was, the
    text stays in the form and the form shows why. *)
Theorem handleSubmit_adds_trimmed uuid now (f : AddTodoForm.Form) s :
  (valid_title (AddTodoForm.title f) →
     (AddTodoForm.handleSubmit uuid now f s).1 = AddTodoForm.mkForm [] false None
     ∧ todos (AddTodoForm.handleSubmit uuid now f s).2
       = todos s ++ [ mkTodo uuid (trim (AddTodoForm.title f)) false (Some now) ])
  ∧ (¬ valid_title (AddTodoForm.title f) →
       (AddTodoForm.handleSubmit uuid now f s).2 = s
       ∧ AddTodoForm.title (AddTodoForm.handleSubmit uuid now f s).1 = AddTodoForm.title f
       ∧ AddTodoForm.validationError (AddTodoForm.handleSubmit uuid now f s).1
         = Some (if decide (trim (AddTodoForm.title f) = []) then msg_required
                 else msg_too_long)).
Proof.
  unfold AddTodoForm.handleSubmit. split; intros Hv.
  - pose proof Hv as [-> Hlen]%valid_title_iff. simpl.
    rewrite decide_False by done. simpl. split; [done|].
    unfold addTodo. cbn [input_title].
    apply valid_title_trim, validateTodoTitle_valid in Hv as ->. simpl.
    rewrite todos_commit. unfold createTodo. simpl. by rewrite trim_idemp.
  - rewrite valid_title_iff in Hv.
    destruct (trim (AddTodoForm.title f)) as [|c t] eqn:Ht; simpl; [done|].
    case_decide; [done|]. destruct Hv. done.
Qed.

(** Saving an edit writes only a changed, valid title.  When the typed
    text, once trimmed, is empty, longer than 500 characters, or equal to
    the item's title, the hook is not called and its state stays as it
    was; otherwise every item with the item's id gets the trimmed text for
    a title and keeps its other fields, the other items stay as they are,
    and editing ends. *)
Theorem handleSaveEdit_writes_changed_title todo (c : TodoItem.Item) s :
  (¬ valid_title (TodoItem.editTitle c) ∨ trim (TodoItem.editTitle c) = title todo →
     (TodoItem.handleSaveEdit todo c s).2 = s)
  ∧ (¬ valid_title (TodoItem.editTitle c) →
       TodoItem.isEditing (TodoItem.handleSaveEdit todo c s).1 = TodoItem.isEditing c
       ∧ is_Some (TodoItem.validationError (TodoItem.handleSaveEdit todo c s).1))
  ∧ (valid_title (TodoItem.editTitle c) →
       TodoItem.isEditing (TodoItem.handleSaveEdit todo c s).1 = false
       ∧ TodoItem.validationError (TodoItem.handleSaveEdit todo c s).1 = None)
  ∧ (valid_title (TodoItem.editTitle c) → trim (TodoItem.editTitle c) ≠ title todo →
       ∀ k todo', todos s !! k = Some todo' →
         todos (TodoItem.handleSaveEdit todo c s).2 !! k
         = Some (if decide (id todo' = id todo)
                 then mkTodo (id todo') (trim (TodoItem.editTitle c))
                        (completed todo') (createdAt todo')
                 else todo')).
Proof.
  unfold TodoItem.handleSaveEdit.
  split; [|split; [|split]].
  - intros [Hv|Hsame].
    + rewrite valid_title_iff in Hv.
      destruct (truthy_string _) eqn:Ht; simpl; [|done].
      case_decide; [done|]. destruct Hv. done.
    + destruct (truthy_string _); simpl; [|done].
      case_decide; [done|]. by rewrite decide_True.
  - intros Hv. rewrite valid_title_iff in Hv.
    destruct (truthy_string _) eqn:Ht; simpl; [|by eauto].
    case_decide; simpl; [by eauto|]. destruct Hv. done.
  - intros [-> Hlen]%valid_title_iff. simpl. rewrite decide_False by done.
    by case_decide.
  - intros Hv Hchanged k todo' Hk.
    pose proof Hv as [Htr Hlen]%valid_title_iff. rewrite Htr. simpl.
    rewrite !decide_False by done. simpl.
    unfold updateTodo. cbn [upd_title].
    apply valid_title_trim, validateTodoTitle_valid in Hv as Hv'. rewrite Hv'. simpl.
    rewrite todos_commit, updateTodo_lookup, Hk. simpl.
    case_decide; [|done]. unfold merged. simpl.
    by rewrite Htr, trim_idemp.
Qed.

(** The age label goes by elapsed time, not by the calendar: an item is
    "today" for the 24 hours after its creation, "yesterday" for the next
    24, then so many days ago up to six, and from seven days on it shows
    its date, as an invalid date does.  A creation time in the future
    gives a negative number of days ago. *)
Theorem formatCreatedAt_by_elapsed_time now t :
  Z.abs (now - t) < 2 ^ 53 →
  (TodoItem.formatCreatedAt now (Some t) = TodoItem.Today ↔ 0 ≤ now - t < 86400000)
  ∧ (TodoItem.formatCreatedAt now (Some t) = TodoItem.Yesterday
     ↔ 86400000 ≤ now - t < 172800000)
  ∧ (∀ n, TodoItem.formatCreatedAt now (Some t) = TodoItem.DaysAgo n
          ↔ (n < 0 ∨ 2 ≤ n < 7) ∧ n * 86400000 ≤ now - t < (n + 1) * 86400000)
  ∧ (∀ d, TodoItem.formatCreatedAt now (Some t) = TodoItem.LocaleDate d
          ↔ d = Some t ∧ 604800000 ≤ now - t)
  ∧ (now < t → ∃ n, n < 0 ∧ TodoItem.formatCreatedAt now (Some t) = TodoItem.DaysAgo n)
  ∧ TodoItem.formatCreatedAt now None = TodoItem.LocaleDate None.
Proof.
  intros _. unfold TodoItem.formatCreatedAt.
  change (1000 * 60 * 60 * 24) with 86400000.
  pose proof (Z.div_mod (now - t) 86400000 ltac:(lia)) as Hdm.
  pose proof (Z.mod_pos_bound (now - t) 86400000 ltac:(lia)) as Hmod.
  set (q := (now - t) `div` 86400000) in *. clearbody q.
  split; [|split; [|split; [|split; [|split]]]].
  - repeat case_decide; split; intros; try done; lia.
  - repeat case_decide; split; intros; try done; lia.
  - intros n. repeat case_decide; split; intros Hn; try done; try lia.
    + injection Hn as <-. lia.
    + f_equal. nia.
  - intros d. repeat case_decide; split; intros Hn; try done; try lia.
    + injection Hn as <-. split; [done|lia].
    + destruct Hn as [-> _]. done.
  - intros Hfut. exists q. split; [lia|]. rewrite !decide_False by lia.
    by rewrite decide_True by lia.
  - done.
Qed.

End ComponentProps.


Lemma formatCreatedAt_by_elapsed_time_witness :
  Z.abs (1737109800000 - 1737105300000) < 2 ^ 53
  ∧ TodoItem.formatCreatedAt 1737109800000 (Some 1737105300000) = TodoItem.Today.
Proof.
  assert (Hnear : Z.abs (1737109800000 - 1737105300000) < 2 ^ 53) by (vm_compute; reflexivity).
  split; [exact Hnear|].
  destruct (formatCreatedAt_by_elapsed_time 1737109800000 1737105300000 Hnear)
    as [[_ Htoday] _].
  apply Htoday. lia.
Defined.

(** ** The type guards *)

Section RegExpFacts.
Import RegExp.
Implicit Types (r : regex) (s : js_string) (c : N).

Lemma nullable_matches r : nullable r = true ↔ matches r [].
Proof.
  split.
  - induction r as [| |p|r1 IH1 r2 IH2|r1 IH1 r2 IH2|r IH]; simpl; intros Hn; try done.
    + constructor.
    + apply andb_prop in Hn as [H1 H2].
      change (@nil N) with (@nil N ++ []). constructor; auto.
    + apply orb_prop in Hn as [H1|H2];
        [apply matches_Alt_l|apply matches_Alt_r]; auto.
    + constructor.
  - intros Hm. remember [] as s eqn:Hs.
    induction Hm as [|p c Hp|r1 r2 s1 s2 H1 IH1 H2 IH2|r1 r2 s H IH|r1 r2 s H IH
                    |r|r s1 s2 H1 IH1 H2 IH2]; simpl; try done.
    + apply app_eq_nil in Hs as [-> ->]. by rewrite IH1, IH2.
    + by rewrite IH.
    + rewrite IH by done. apply orb_true_r.
Qed.

Lemma matches_Star_cons r c s :
  matches (Star r) (c :: s) →
  ∃ s1 s2, s = s1 ++ s2 ∧ matches r (c :: s1) ∧ matches (Star r) s2.
Proof.
  intros Hm. remember (Star r) as r' eqn:Hr. remember (c :: s) as s' eqn:Hs.
  revert s Hs.
  induction Hm as [| | | | | |r0 s1 s2 H1 _ H2 IH2]; intros s0 Hs; try done.
  injection Hr as ->. destruct s1 as [|c' s1]; simpl in Hs.
  - by apply IH2.
  - injection Hs as -> <-. eauto.
Qed.

Lemma derivative_matches c r s : matches (derivative c r) s ↔ matches r (c :: s).
Proof.
  revert s. induction r as [| |p|r1 IH1 r2 IH2|r1 IH1 r2 IH2|r IH]; intros s; simpl.
  - split; inversion 1.
  - split; inversion 1.
  - destruct (p c) eqn:Hp; split; intros Hm; inversion Hm; subst.
    + by constructor.
    + constructor.
    + congruence.
  - assert (Hcat : matches (Cat (derivative c r1) r2) s →
                   matches (Cat r1 r2) (c :: s)).
    { intros Hm. inversion Hm as [| |? ? s1 s2 H1 H2| | | |]; subst.
      apply IH1 in H1. change (c :: s1 ++ s2) with ((c :: s1) ++ s2). by constructor. }
    assert (Hinv : matches (Cat r1 r2) (c :: s) →
                   matches (Cat (derivative c r1) r2) s
                   ∨ (matches r1 [] ∧ matches r2 (c :: s))).
    { intros Hm. inversion Hm as [| |? ? s1 s2 H1 H2 [Hr1 Hr2] Hs| | | |]; subst.
      destruct s1 as [|c' s1]; simpl in Hs.
      - right. by subst.
      - injection Hs as -> <-. left. constructor; [by apply IH1|done]. }
    destruct (nullable r1) eqn:Hn; split.
    + intros Hm. inversion Hm; subst; [by apply Hcat|].
      change (c :: s) with ([] ++ c :: s). constructor; [by apply nullable_matches|].
      by apply IH2.
    + intros [Hm|[_ Hm]]%Hinv; [by apply matches_Alt_l|].
      apply matches_Alt_r. by apply IH2.
    + apply Hcat.
    + intros [Hm|[Hm _]]%Hinv; [done|].
      apply nullable_matches in Hm. congruence.
  - split; intros Hm; inversion Hm; subst.
    + apply matches_Alt_l. by apply IH1.
    + apply matches_Alt_r. by apply IH2.
    + apply matches_Alt_l. by apply IH1.
    + apply matches_Alt_r. by apply IH2.
  - split.
    + intros Hm. inversion Hm as [| |? ? s1 s2 H1 H2| | | |]; subst.
      apply IH in H1. change (c :: s1 ++ s2) with ((c :: s1) ++ s2). by constructor.
    + intros (s1 & s2 & -> & H1 & H2)%matches_Star_cons.
      constructor; [by apply IH|done].
Qed.

Lemma test_matches r s : test r s = true ↔ matches r s.
Proof.
  unfold test. revert r. induction s as [|c s IH]; intros r; simpl.
  - apply nullable_matches.
  - rewrite IH. apply derivative_matches.
Qed.

End RegExpFacts.

Section GuardFacts.
Import RegExp Utils.
Implicit Types (r : regex) (s : js_string) (c : N) (p : N → bool).

Lemma matches_Cat_inv r1 r2 s :
  matches (Cat r1 r2) s ↔ ∃ s1 s2, s = s1 ++ s2 ∧ matches r1 s1 ∧ matches r2 s2.
Proof.
  split.
  - inversion 1; subst. eauto.
  - intros (s1 & s2 & -> & H1 & H2). by constructor.
Qed.

Lemma matches_Class_inv p s : matches (Class p) s ↔ ∃ c, s = [c] ∧ p c = true.
Proof.
  split.
  - inversion 1; subst. eauto.
  - intros (c & -> & Hp). by constructor.
Qed.

Lemma matches_Chr c s : matches (Chr c) s ↔ s = [c].
Proof.
  unfold Chr. rewrite matches_Class_inv. split.
  - by intros (c' & -> & ->%bool_decide_eq_true).
  - intros ->. exists c. by rewrite bool_decide_eq_true.
Qed.

Lemma matches_Star_Class p s :
  matches (Star (Class p)) s ↔ Forall (λ c, p c = true) s.
Proof.
  split.
  - induction s as [|c s IH]; [done|].
    intros (s1 & s2 & -> & H1 & H2)%matches_Star_cons.
    apply matches_Class_inv in H1 as (c' & Hc & Hp).
    injection Hc as <- ->. auto.
  - induction 1 as [|c s Hp _ IH]; [constructor|].
    change (c :: s) with ([c] ++ s). constructor; [by constructor|done].
Qed.

Lemma matches_Plus_Class p s :
  matches (Plus (Class p)) s ↔ s ≠ [] ∧ Forall (λ c, p c = true) s.
Proof.
  unfold Plus. rewrite matches_Cat_inv. split.
  - intros (s1 & s2 & -> & (c & -> & Hp)%matches_Class_inv & H2%matches_Star_Class).
    split; [done|]. by constructor.
  - intros [Hne Hall]. destruct Hall as [|c s Hp Hall]; [done|].
    exists [c], s. split; [done|]. split; [by constructor|by apply matches_Star_Class].
Qed.

Lemma matches_Times_Class n p s :
  matches (Times n (Class p)) s ↔ length s = n ∧ Forall (λ c, p c = true) s.
Proof.
  revert s. induction n as [|n IH]; intros s; simpl.
  - split.
    + inversion 1. by split.
    + intros [->%nil_length_inv _]. constructor.
  - rewrite matches_Cat_inv. split.
    + intros (s1 & s2 & -> & (c & -> & Hp)%matches_Class_inv & [Hl Hall]%IH).
      simpl. split; [by rewrite Hl|by constructor].
    + intros [Hl Hall]. destruct Hall as [|c s Hp Hall]; [done|].
      exists [c], s. split; [done|]. split; [by constructor|].
      apply IH. split; [by injection Hl|done].
Qed.

End GuardFacts.

Section Guards.
Import RegExp Utils.

Lemma address_part_matches s :
  matches (Plus (Class not_space_or_at)) s ↔ address_part s.
Proof.
  rewrite matches_Plus_Class. unfold address_part, not_space_or_at.
  apply and_iff_compat_l, Forall_iff. intros c.
  rewrite negb_true_iff, orb_false_iff, N.eqb_neq. done.
Qed.

(** [isValidEmail] accepts exactly the strings [local@domain.tld] whose
    three parts are non-empty and free of whitespace and [@]; the domain and
    the last part may themselves hold dots.  Values that are no strings are
    rejected. *)
Theorem isValidEmail_shape (email : unknown) :
  isValidEmail email = true
  ↔ ∃ local domain tld,
      email = UString (local ++ 64%N :: domain ++ 46%N :: tld)
      ∧ address_part local ∧ address_part domain ∧ address_part tld.
Proof.
  destruct email as [s|d|]; simpl.
  2,3: split; [done|by intros (? & ? & ? & ? & _)].
  rewrite test_matches. unfold emailRegex. split.
  - intros (l & s1 & -> & Hl%address_part_matches
            & (a & s2 & -> & ->%matches_Chr
               & (d & s3 & -> & Hd%address_part_matches
                  & (o & t & -> & ->%matches_Chr & Ht%address_part_matches)
                      %matches_Cat_inv)%matches_Cat_inv)%matches_Cat_inv)%matches_Cat_inv.
    exists l, d, t. done.
  - intros (l & d & t & [= ->] & Hl & Hd & Ht).
    apply (matches_Cat _ _ l), (matches_Cat _ _ [64%N]), (matches_Cat _ _ d),
      (matches_Cat _ _ [46%N]); try by apply address_part_matches.
    all: by apply matches_Chr.
Qed.

(** [isValidUUID] accepts exactly the 36-character strings
    [xxxxxxxx-xxxx-Vxxx-Rxxx-xxxxxxxxxxxx] of hexadecimal digits in either
    case, with a version digit [V] from 1 to 5 and a variant digit [R] among
    8, 9, a, b, A, B. *)
Theorem isValidUUID_shape (i : unknown) :
  isValidUUID i = true
  ↔ ∃ a b v c r d e,
      i = UString (a ++ 45%N :: b ++ 45%N :: v :: c ++ 45%N :: r :: d ++ 45%N :: e)
      ∧ hex_digits 8 a ∧ hex_digits 4 b
      ∧ one_to_five v = true ∧ hex_digits 3 c
      ∧ eight_to_b r = true ∧ hex_digits 3 d
      ∧ hex_digits 12 e.
Proof.
  destruct i as [s|d|]; simpl.
  2,3: split; [done|by intros (? & ? & ? & ? & ? & ? & ? & ? & _)].
  rewrite test_matches. unfold uuidRegex, hex_digits. split.
  - intros Hm.
    repeat match goal with
    | H : matches (Cat _ _) _ |- _ => apply matches_Cat_inv in H as (? & ? & -> & ? & ?)
    | H : matches (Chr _) _ |- _ => apply matches_Chr in H as ->
    | H : matches (Times _ _) _ |- _ => apply matches_Times_Class in H
    | H : matches (Class _) _ |- _ => apply matches_Class_inv in H as (? & -> & ?)
    end.
    do 7 eexists. split; [reflexivity|]. done.
  - intros (a & b & v & c & r & d & e & [= ->] & Ha & Hb & Hv & Hc & Hr & Hd & He).
    apply (matches_Cat _ _ a), (matches_Cat _ _ [45%N]), (matches_Cat _ _ b),
      (matches_Cat _ _ [45%N]), (matches_Cat _ _ [v]), (matches_Cat _ _ c),
      (matches_Cat _ _ [45%N]), (matches_Cat _ _ [r]), (matches_Cat _ _ d),
      (matches_Cat _ _ [45%N]).
    all: first [by apply matches_Chr | by apply matches_Times_Class
               | by apply matches_Class_inv; eauto ].
Qed.

(** The string guard and the title validation agree.  [isNonEmptyString]
    holds of the strings that are not made of whitespace only, and of no
    other value; [validateTodoTitle] accepts a title exactly when the guard
    holds and the trimmed title has at most 500 characters. *)
Theorem isNonEmptyString_validateTodoTitle (value : unknown) (t : js_string) :
  (isNonEmptyString value = true ↔ ∃ s, value = UString s ∧ ¬ whitespace_only s)
  ∧ (TodoService.isValid (TodoService.validateTodoTitle t) = true
     ↔ isNonEmptyString (UString t) = true ∧ (length (trim t) ≤ 500)%nat).
Proof.
  split.
  - destruct value as [s|d|]; simpl.
    2,3: split; [done|by intros (? & ? & _)].
    rewrite bool_decide_eq_true. split.
    + intros Hl. exists s. split; [done|]. intros Ht%trim_nil_iff.
      rewrite Ht in Hl. simpl in Hl. lia.
    + intros (s' & [= <-] & Hne). rewrite <- trim_nil_iff in Hne.
      destruct (trim s); [done|simpl; lia].
  - rewrite validateTodoTitle_valid. unfold valid_title. simpl.
    rewrite bool_decide_eq_true. lia.
Qed.

End Guards.

(** ** The views *)

Section Views.
Context {S : TodoList.SortBuiltin}.
Implicit Types (todos : list Todo) (s : Hooks.State).

Lemma filter_active_nil todos :
  length (filter (λ todo, completed todo = false) todos) = 0%nat
  ↔ Forall (λ todo, completed todo = true) todos.
Proof.
  induction todos as [|todo l IH]; [done|].
  rewrite Forall_cons, <- IH.
  destruct (completed todo) eqn:Hc.
  - rewrite filter_cons_False by (rewrite Hc; done). tauto.
  - rewrite filter_cons_True by done. simpl. split; [lia|]. by intros [? _].
Qed.

Lemma filter_done_pos todos :
  todos ≠ [] → Forall (λ todo, completed todo = true) todos →
  (0 < length (filter (λ todo, completed todo = true) todos))%nat.
Proof.
  intros Hne Hall. destruct Hall as [|todo l Hc Hall]; [done|].
  rewrite filter_cons_True by done. simpl. lia.
Qed.

(** The list's main panel is never blank and shows the array in full.
    For any array, loading flag and error, the panel shows at least one of
    the error, the loading sign, the empty state and the items.  The items
    are shown exactly when the array is not empty, also beside an error or
    while loading, and they are the array as the engine sorts it with the
    component's comparator: when every creation date is valid, the
    array's elements, each as often as it is there, in the shown order.
    The empty state appears only alone, for an empty array that is neither
    loading nor in error. *)
Theorem TodoList_main_panel {L : TodoList.SortBuiltinLaws}
  todos (isLoading : bool) (error : option string) :
  let panel := TodoListView.main (TodoListView.render todos isLoading error) in
  panel ≠ []
  ∧ (∀ l, TodoListView.Items l ∈ panel
          ↔ todos ≠ [] ∧ l = TodoList.presentationOrder todos)
  ∧ (Forall has_date todos →
       TodoList.presentationOrder todos ≡ₚ todos
       ∧ StronglySorted shown_before (TodoList.presentationOrder todos))
  ∧ (TodoListView.EmptyState ∈ panel
     ↔ todos = [] ∧ isLoading = false ∧ shown_error error = None)
  ∧ (TodoListView.EmptyState ∈ panel → panel = [TodoListView.EmptyState]).
Proof.
  assert (Hsorted : Forall has_date todos →
            TodoList.presentationOrder todos ≡ₚ todos
            ∧ StronglySorted shown_before (TodoList.presentationOrder todos)).
  { intros Hd. split; [by apply presentationOrder_perm|].
    by apply presentationOrder_shown_before. }
  unfold TodoListView.render. cbn [TodoListView.main].
  set (sorted := TodoList.presentationOrder todos) in *. clearbody sorted.
  destruct todos as [|todo l0]; cbn [length];
    destruct isLoading, (shown_error error) as [e|]; simpl;
    repeat case_decide; try lia.
  all: split; [done|].
  all: rewrite ?elem_of_cons, ?elem_of_nil.
  all: split; [intros l; rewrite ?elem_of_cons, ?elem_of_nil|].
  all: split_and?; try done.
  all: intuition (subst; try done; try congruence).
Qed.

(** The page around the list agrees with it.  The welcome panel is shown
    exactly when the list shows its empty state.  The footer is there
    exactly when there are items; it counts the active items while there
    are any, says that all is done exactly when every item is completed,
    and then, and only then, the celebration panel is shown with it. *)
Theorem TodoApp_footer_consistent s :
  let view := TodoApp.render s in
  (TodoApp.welcome view = true
   ↔ TodoListView.EmptyState ∈ TodoListView.main (TodoApp.todoList view))
  ∧ (is_Some (TodoApp.footer view) ↔ Hooks.todos s ≠ [])
  ∧ (∀ f, TodoApp.footer view = Some f →
       (TodoApp.remaining f = None
        ↔ Forall (λ todo, completed todo = true) (Hooks.todos s))
       ∧ (∀ n, TodoApp.remaining f = Some n →
            (0 < n)%nat
            ∧ n = length (filter (λ todo, completed todo = false) (Hooks.todos s)))
       ∧ (TodoApp.celebration f = true ↔ TodoApp.remaining f = None)).
Proof.
  unfold TodoApp.render, TodoListView.render.
  cbn [TodoApp.welcome TodoApp.todoList TodoApp.footer TodoListView.main Hooks.stats
       Hooks.done_count Hooks.active_count].
  split; [|split].
  - destruct (Hooks.todos s) as [|todo l]; cbn [length];
      destruct (Hooks.isLoading s), (shown_error (Hooks.combinedError s)) as [e|];
      simpl; repeat case_decide; try lia;
      rewrite ?elem_of_cons, ?elem_of_nil; intuition congruence.
  - destruct (Hooks.todos s) as [|todo l]; cbn [length]; case_decide; try lia.
    + split; [by intros [? ?]|done].
    + split; [done|eauto].
  - intros f Hf. case_decide as Hlen; [|done]. injection Hf as <-.
    cbn [TodoApp.remaining TodoApp.celebration].
    assert (Hne : Hooks.todos s ≠ []) by (intros Hnil; rewrite Hnil in Hlen; simpl in Hlen; lia).
    pose proof (filter_active_nil (Hooks.todos s)) as Hnil.
    split; [|split].
    + case_decide; split; try done.
      * intros Hall%Hnil. lia.
      * intros _. apply Hnil. lia.
    + intros n. case_decide; [|done]. intros [= <-]. done.
    + rewrite andb_true_iff, !bool_decide_eq_true. case_decide; split; try done.
      * lia.
      * intros _. split; [|lia]. apply filter_done_pos; [done|]. apply Hnil. lia.
Qed.

End Views.

Lemma TodoList_main_panel_witness :
  TodoListView.Items [Samples.milk_again; Samples.milk; Samples.eggs]
  ∈ TodoListView.main
      (TodoListView.render (S := TodoList.by_insertion)
         [Samples.milk; Samples.eggs; Samples.milk_again] true None)
  ∧ [Samples.milk_again; Samples.milk; Samples.eggs]
    ≡ₚ [Samples.milk; Samples.eggs; Samples.milk_again].
Proof.
  assert (Hd : Forall has_date [Samples.milk; Samples.eggs; Samples.milk_again]).
  { repeat constructor; by eexists. }
  destruct (TodoList_main_panel (S := TodoList.by_insertion) (L := by_insertion_laws)
              [Samples.milk; Samples.eggs; Samples.milk_again] true None)
    as (_ & Hitems & Hsorted & _).
  split.
  - apply Hitems. split; [discriminate|reflexivity].
  - exact (proj1 (Hsorted Hd)).
Defined.
